(** * opencode: the shell-history store and the desktop terminal component

    A shallow embedding of two pieces of the repository:

    - [ShellHistory]: [loadHistory] and [addToHistory] of
      [packages/opencode/src/cli/cmd/tui/component/prompt/shell-history.ts],
      a module-level cache in front of a history file;
    - [TerminalView]: the Solid component [Terminal] (the [onMount] body, the
      event handlers it registers and the [onCleanup] body), which drives a
      ghostty-web terminal and a WebSocket to a remote PTY.

    JavaScript strings are modelled as [string], a character being a UTF-16
    code unit below 256; [trim] and [toLowerCase] are exact on that range. *)

From Stdlib Require Import String Ascii List Bool Arith ZArith Lia.
Import ListNotations.
Local Open Scope string_scope.

Set Implicit Arguments.

(* ===================================================================== *)
(** ** JavaScript string primitives used by the sources                   *)
(* ===================================================================== *)

Module JsString.

(** The line feed, written ["\n"] in the sources. *)
Definition LF : ascii := "010"%char.
Definition nl : string := String LF "".

(** [WhiteSpace] and [LineTerminator] code units below 256:
    TAB, LF, VT, FF, CR, SP and NBSP. *)
Definition is_whitespace (c : ascii) : bool :=
  let n := nat_of_ascii c in
  (((9 <=? n) && (n <=? 13)) || (n =? 32) || (n =? 160))%nat.

(** [String.prototype.trimStart]. *)
Fixpoint trimStart (s : string) : string :=
  match s with
  | "" => ""
  | String c r => if is_whitespace c then trimStart r else s
  end.

(** [String.prototype.trimEnd]. *)
Fixpoint trimEnd (s : string) : string :=
  match s with
  | "" => ""
  | String c r =>
      let r' := trimEnd r in
      if is_whitespace c && (r' =? "") then "" else String c r'
  end.

(** [String.prototype.trim]. *)
Definition trim (s : string) : string := trimEnd (trimStart s).

(** Truthiness of a string value: every string but [""]. *)
Definition truthy (s : string) : bool := negb (s =? "").

(** [s.split("\n")]: the pieces between line feeds; never an empty array. *)
Fixpoint split_lines (s : string) : list string :=
  match s with
  | "" => [""]
  | String c r =>
      if Ascii.eqb c LF then "" :: split_lines r
      else match split_lines r with
           | h :: t => String c h :: t
           | [] => [String c ""]
           end
  end.

(** [l.join("\n")]. *)
Definition join_lines (l : list string) : string := String.concat nl l.

(** Lower-casing of one code unit below 256: A-Z and the Latin-1 capitals
    (U+00C0-U+00DE but the multiplication sign U+00D7) move up by 32. *)
Definition lower_char (c : ascii) : ascii :=
  let n := nat_of_ascii c in
  if (((65 <=? n) && (n <=? 90))
      || ((192 <=? n) && (n <=? 222) && negb (n =? 215)))%nat
  then ascii_of_nat (n + 32) else c.

(** [String.prototype.toLowerCase] on strings of code units below 256,
    where it works unit by unit. On other text it does not: a code unit may
    lower to two (U+0130) and a capital sigma lowers by its position in the
    word. The facts of this development therefore take the lowering only
    through the comparisons the sources make with it, apart from the one
    fact that nothing but the backtick lowers to the backtick, which holds
    of any text. *)
Fixpoint toLowerCase (s : string) : string :=
  match s with
  | "" => ""
  | String c r => String (lower_char c) (toLowerCase r)
  end.

(** [s.startsWith(p)] *)
Fixpoint startsWith (s p : string) {struct p} : bool :=
  match p, s with
  | "", _ => true
  | String a p', String b s' => Ascii.eqb a b && startsWith s' p'
  | String _ _, "" => false
  end.

(** [s.slice(n)] for [0 <= n]: what follows the first [n] code units. *)
Fixpoint slice (n : nat) (s : string) : string :=
  match n, s with
  | O, _ => s
  | S n', String _ r => slice n' r
  | S _, "" => ""
  end.

(** [s.endsWith(suffix)] *)
Definition endsWith (s suffix : string) : bool :=
  (String.length suffix <=? String.length s)%nat
  && (slice (String.length s - String.length suffix) s =? suffix).

(** [s.split(/\s+/)]: the pieces between maximal runs of white space;
    [in_gap] says that the previous code unit was white space. *)
Fixpoint split_spaces_from (in_gap : bool) (s : string) : list string :=
  match s with
  | "" => [""]
  | String c r =>
      if is_whitespace c then
        if in_gap then split_spaces_from true r
        else "" :: split_spaces_from true r
      else
        match split_spaces_from false r with
        | h :: t => String c h :: t
        | [] => [String c ""]
        end
  end.

Definition split_spaces (s : string) : list string :=
  split_spaces_from false s.

End JsString.

(* ===================================================================== *)
(** ** shell-history.ts                                                   *)
(* ===================================================================== *)

Module ShellHistory.
Import JsString.

(** [const MAX_HISTORY = 1000] *)
Definition MAX_HISTORY : nat := 1000.

(** What the module sees of the file system: whether [HISTORY_FILE] exists
    and what it holds, and whether reading or writing it raises (both are
    wrapped in [try]/[catch] by the source). *)
Record FileSystem := {
  file : option string;
  read_throws : bool;
  write_throws : bool
}.

(** The module state: [let historyCache: string[] | null] and the disk. *)
Record State := {
  historyCache : option (list string);
  disk : FileSystem
}.

Definition set_cache (h : list string) (st : State) : State :=
  {| historyCache := Some h; disk := disk st |}.

(** [fs.writeFileSync(HISTORY_FILE, text, "utf-8")] inside [try {} catch {}]. *)
Definition try_write (text : string) (st : State) : State :=
  if write_throws (disk st) then st
  else {| historyCache := historyCache st;
          disk := {| file := Some text;
                     read_throws := read_throws (disk st);
                     write_throws := write_throws (disk st) |} |}.

(** [loadHistory]: the cached array when there is one (an empty array is
    truthy), else the non-empty lines of the file, else [[]]. *)
Definition loadHistory (st : State) : list string * State :=
  match historyCache st with
  | Some h => (h, st)
  | None =>
      match file (disk st) with
      | Some content =>
          if read_throws (disk st) then ([], set_cache [] st)
          else
            let h := filter truthy (split_lines content) in
            (h, set_cache h st)
      | None => ([], set_cache [] st)
      end
  end.

(** [history.indexOf(x)]: the first index holding [x]; [None] is [-1]. *)
Fixpoint indexOf (x : string) (l : list string) : option nat :=
  match l with
  | [] => None
  | y :: r => if y =? x then Some 0
              else match indexOf x r with
                   | Some i => Some (S i)
                   | None => None
                   end
  end.

(** [history.splice(i, 1)]: drop the element at index [i]. *)
Definition splice1 (i : nat) (l : list string) : list string :=
  firstn i l ++ skipn (S i) l.

(** [if (history.length > MAX_HISTORY) history.length = MAX_HISTORY] *)
Definition truncate (l : list string) : list string :=
  if (MAX_HISTORY <? length l)%nat then firstn MAX_HISTORY l else l.

(** [addToHistory] *)
Definition addToHistory (command : string) (st : State) : State :=
  let trimmed := trim command in
  if negb (truthy trimmed) then st
  else
    let (history, st1) := loadHistory st in
    let history1 :=
      match indexOf trimmed history with
      | Some existingIndex => splice1 existingIndex history
      | None => history
      end in
    let history2 := trimmed :: history1 in
    let history3 := truncate history2 in
    try_write (join_lines history3) (set_cache history3 st1).

(** States the module can be in: it starts with an empty cache over any
    disk, its two exported mutators run, and the disk may change under it. *)
Inductive possible : State -> Prop :=
| reach_start d : possible {| historyCache := None; disk := d |}
| reach_load st : possible st -> possible (snd (loadHistory st))
| reach_add st c : possible st -> possible (addToHistory c st)
| reach_disk st d :
    possible st -> possible {| historyCache := historyCache st; disk := d |}.

(** The history a call works on: what [loadHistory] hands it. *)
Definition history_of (st : State) : list string := fst (loadHistory st).

Definition cache_nonempty_entries (st : State) : Prop :=
  match historyCache st with
  | Some h => Forall (fun e => e <> "") h
  | None => True
  end.

(** A disk whose history file holds the same line twice, and the module
    freshly loaded over it. *)
Definition twice_disk : FileSystem :=
  {| file := Some ("ls" ++ nl ++ "ls");
     read_throws := false; write_throws := false |}.

Definition twice_start : State :=
  {| historyCache := None; disk := twice_disk |}.

(** A freshly loaded module over a disk without a history file. *)
Definition blank_start : State :=
  {| historyCache := None;
     disk := {| file := None; read_throws := false; write_throws := false |} |}.

End ShellHistory.

(* ===================================================================== *)
(** ** The desktop terminal component                                     *)
(* ===================================================================== *)

Module TerminalView.
Import JsString.
Local Open Scope Z_scope.

(** [LocalPTY] (declared in [@/context/session]): the fields the component
    reads or writes, the remaining ones being carried along by the object
    spread in [onCleanup]. *)
Record LocalPTY := {
  id : string;
  rows : option Z;
  cols : option Z;
  buffer : option string;
  scrollY : option Z;
  others : list (string * string)
}.

(** [TerminalProps]: the session and which optional callbacks the host
    passed. *)
Record TerminalProps := {
  pty : LocalPTY;
  onSubmit : bool;
  onCleanup : bool;
  onConnectError : bool
}.

(** What [useSDK()] provides. *)
Record Sdk := { url : string; directory : string }.

(** The key event handed to the custom key handler. *)
Record KeyboardEvent := {
  key : string;
  ctrlKey : bool;
  shiftKey : bool;
  altKey : bool;
  metaKey : bool
}.

Inductive Addon := theSerializeAddon | theFitAddon.

(** The four WebSocket event types the component listens to. *)
Inductive WsEvent := on_open | on_message | on_error | on_close.

(** [WebSocket.readyState] *)
Inductive ReadyState := CONNECTING | OPEN | CLOSING | CLOSED.

(** Every call the component makes into the browser, the terminal library,
    the SDK and the host, in the order of the trace it leaves. *)
Inductive call :=
| new_WebSocket (address : string)
| new_Term
| term_attachCustomKeyEventHandler
| new_FitAddon
| new_SerializeAddon
| term_loadAddon (a : Addon)
| term_open
| term_resize (c r : Z)
| term_reset
| term_write (data : string)
| term_scrollToLine (line : Z)
| container_focus
| fitAddon_fit
| fitAddon_observeResize
| window_addEventListener_resize
| term_onResize
| term_onData
| term_onKey
| ws_addEventListener (e : WsEvent)
| ws_send (data : string)
| ws_close
| term_dispose
| term_getViewportY
| serializeAddon_serialize
| pty_update (session : string) (c r : Z)
| console_log (msg : string)
| console_error (msg : string)
| event_preventDefault
| props_onSubmit
| props_onCleanup (p : LocalPTY)
| props_onConnectError.

(** The handlers the component has installed so far. *)
Inductive Listener :=
| keyHook
| windowResize
| termResize
| termData
| termKey
| wsOn (e : WsEvent).

Definition WsEvent_eqb (a b : WsEvent) : bool :=
  match a, b with
  | on_open, on_open | on_message, on_message
  | on_error, on_error | on_close, on_close => true
  | _, _ => false
  end.

Definition Listener_eqb (a b : Listener) : bool :=
  match a, b with
  | keyHook, keyHook | windowResize, windowResize | termResize, termResize
  | termData, termData | termKey, termKey => true
  | wsOn x, wsOn y => WsEvent_eqb x y
  | _, _ => false
  end.

(** The code the component depends on but does not contain: the ghostty-web
    terminal (its state, how each call changes it, what can be read back),
    the serialize addon, [encodeURIComponent], and which calls into the
    library, the SDK or the host raise. *)
Class Platform := {
  Surface : Type;
  fresh : Surface;
  after : call -> Surface -> Surface;
  term_rows : Surface -> Z;
  term_cols : Surface -> Z;
  viewportY : Surface -> Z;
  serialize : Surface -> string;
  encodeURIComponent : string -> string;
  throws : call -> bool
}.

(** A reference terminal: a grid size, a scroll position and the text
    written since the last reset. *)
Record Grid := {
  g_cols : Z;
  g_rows : Z;
  g_top : Z;
  g_text : string;
  g_disposed : bool
}.

Definition grid_after (c : call) (g : Grid) : Grid :=
  match c with
  | term_resize c r =>
      {| g_cols := c; g_rows := r; g_top := g_top g; g_text := g_text g;
         g_disposed := g_disposed g |}
  | term_reset =>
      {| g_cols := g_cols g; g_rows := g_rows g; g_top := 0; g_text := "";
         g_disposed := g_disposed g |}
  | term_write d =>
      {| g_cols := g_cols g; g_rows := g_rows g; g_top := g_top g;
         g_text := g_text g ++ d; g_disposed := g_disposed g |}
  | term_scrollToLine n =>
      {| g_cols := g_cols g; g_rows := g_rows g; g_top := n;
         g_text := g_text g; g_disposed := g_disposed g |}
  | term_dispose =>
      {| g_cols := g_cols g; g_rows := g_rows g; g_top := g_top g;
         g_text := g_text g; g_disposed := true |}
  | _ => g
  end.

Definition grid_platform (oracle : call -> bool) : Platform :=
  {| Surface := Grid;
     fresh := {| g_cols := 80; g_rows := 24; g_top := 0; g_text := "";
                 g_disposed := false |};
     after := grid_after;
     term_rows := g_rows;
     term_cols := g_cols;
     viewportY := g_top;
     serialize := g_text;
     encodeURIComponent := fun s => s;
     throws := oracle |}.

(** Oracles: nothing raises; only [term.write] of one payload raises; only
    the construction of the terminal raises. *)
Definition quiet : call -> bool := fun _ => false.


Definition rejects (bad : string) : call -> bool :=
  fun c => match c with term_write d => (d =? bad)%string | _ => false end.

Section Component.
Context {P : Platform}.
Variable props : TerminalProps.
Variable sdk : Sdk.

(** The component's [let] bindings ([None]/[false]: still [undefined]),
    the connection's ready state, and the handlers installed so far. *)
Record Component := {
  ws : option ReadyState;
  term : option Surface;
  serializeAddon : bool;
  fitAddon : bool;
  listeners : list Listener
}.

Definition init : Component :=
  {| ws := None; term := None; serializeAddon := false; fitAddon := false;
     listeners := [] |}.

Inductive Exn :=
| TypeError (binding : string)
| Thrown (c : call).

Inductive Completion (A : Type) :=
| Normal (a : A)
| Abrupt (e : Exn).
Arguments Abrupt {A} e.

(** One run of a piece of code: the calls it made, the bindings it left
    (kept when it raises) and how it completed. *)
Record Run (A : Type) := {
  trace : list call;
  final : Component;
  outcome : Completion A
}.

Definition M (A : Type) : Type := Component -> Run A.

Definition ret {A} (a : A) : M A :=
  fun st => {| trace := []; final := st; outcome := Normal a |}.

Definition bind {A B} (m : M A) (f : A -> M B) : M B :=
  fun st =>
    let r := m st in
    match outcome r with
    | Normal a =>
        let r' := f a (final r) in
        {| trace := trace r ++ trace r'; final := final r';
           outcome := outcome r' |}
    | Abrupt e =>
        {| trace := trace r; final := final r; outcome := Abrupt e |}
    end.

Definition throw {A} (e : Exn) : M A :=
  fun st => {| trace := []; final := st; outcome := Abrupt e |}.

Definition get : M Component :=
  fun st => {| trace := []; final := st; outcome := Normal st |}.

Definition put (st : Component) : M unit :=
  fun _ => {| trace := []; final := st; outcome := Normal tt |}.

(** A call into the library, the SDK or the host: it may raise. *)
Definition invoke (c : call) : M unit :=
  fun st => {| trace := [c]; final := st;
               outcome := if throws c then Abrupt (Thrown c) else Normal tt |}.

(** A browser built-in with no failure mode where it is used
    ([console.*], [preventDefault], [focus], [addEventListener],
    [close()], and [send] on an open socket). *)
Definition builtin (c : call) : M unit :=
  fun st => {| trace := [c]; final := st; outcome := Normal tt |}.

Notation "x <- m ;; k" := (bind m (fun x => k))
  (at level 61, m at next level, right associativity).
Notation "m ;; k" := (bind m (fun _ => k))
  (at level 61, right associativity).

Definition when (b : bool) (m : M unit) : M unit := if b then m else ret tt.

Definition set_ws (rs : ReadyState) : M unit :=
  st <- get ;;
  put {| ws := Some rs; term := term st;
         serializeAddon := serializeAddon st; fitAddon := fitAddon st;
         listeners := listeners st |}.

Definition set_term (s : Surface) : M unit :=
  st <- get ;;
  put {| ws := ws st; term := Some s;
         serializeAddon := serializeAddon st; fitAddon := fitAddon st;
         listeners := listeners st |}.

Definition set_serializeAddon : M unit :=
  st <- get ;;
  put {| ws := ws st; term := term st;
         serializeAddon := true; fitAddon := fitAddon st;
         listeners := listeners st |}.

Definition set_fitAddon : M unit :=
  st <- get ;;
  put {| ws := ws st; term := term st;
         serializeAddon := serializeAddon st; fitAddon := true;
         listeners := listeners st |}.

Definition register (l : Listener) : M unit :=
  st <- get ;;
  put {| ws := ws st; term := term st;
         serializeAddon := serializeAddon st; fitAddon := fitAddon st;
         listeners := listeners st ++ [l] |}.

(** [term.method(...)]: a [TypeError] while [term] is unassigned, else the
    call, which changes the surface when it returns. *)
Definition on_term (c : call) : M unit :=
  st <- get ;;
  match term st with
  | None => throw (TypeError "term")
  | Some s => invoke c ;; set_term (after c s)
  end.

(** [fitAddon.method()]: the addon acts on the terminal it is loaded in. *)
Definition on_fit (c : call) : M unit :=
  st <- get ;;
  if fitAddon st then
    invoke c ;;
    match term st with
    | Some s => set_term (after c s)
    | None => ret tt
    end
  else throw (TypeError "fitAddon").

(** [ws.addEventListener(e, handler)] *)
Definition ws_listen (e : WsEvent) : M unit :=
  st <- get ;;
  match ws st with
  | None => throw (TypeError "ws")
  | Some _ => builtin (ws_addEventListener e) ;; register (wsOn e)
  end.

(** [ws && ws.readyState === WebSocket.OPEN] *)
Definition is_open (st : Component) : bool :=
  match ws st with Some OPEN => true | _ => false end.

(** The callback given to [term.attachCustomKeyEventHandler]. *)
Definition customKeyEventHandler (event : KeyboardEvent) : M bool :=
  if ctrlKey event && (toLowerCase (key event) =? "`")%string then
    builtin event_preventDefault ;;
    ret true
  else ret false.

(** The restore block of the mount body ([if (local.pty.buffer) { ... }]).
    An optional string is truthy when it is present and not [""], an
    optional number when it is present and not [0]. *)
Definition restore : M unit :=
  let p := pty props in
  match buffer p with
  | Some b =>
      when (truthy b)
        (match rows p, cols p with
         | Some r, Some c =>
             when (negb (r =? 0) && negb (c =? 0)) (on_term (term_resize c r))
         | _, _ => ret tt
         end ;;
         on_term term_reset ;;
         on_term (term_write b) ;;
         match scrollY p with
         | Some y => when (negb (y =? 0)) (on_term (term_scrollToLine y))
         | None => ret tt
         end)
  | None => ret tt
  end.

(** The address the socket is opened at. *)
Definition address : string :=
  (url sdk ++ "/pty/" ++ id (pty props) ++ "/connect?directory="
     ++ encodeURIComponent (directory sdk))%string.

(** The function given to [onMount]; it has no [await], so it runs in one
    turn. *)
Definition onMount_body : M unit :=
  invoke (new_WebSocket address) ;;
  set_ws CONNECTING ;;
  invoke new_Term ;;
  set_term fresh ;;
  on_term term_attachCustomKeyEventHandler ;;
  register keyHook ;;
  invoke new_FitAddon ;;
  set_fitAddon ;;
  invoke new_SerializeAddon ;;
  set_serializeAddon ;;
  on_term (term_loadAddon theSerializeAddon) ;;
  on_term (term_loadAddon theFitAddon) ;;
  on_term term_open ;;
  restore ;;
  builtin container_focus ;;
  on_fit fitAddon_fit ;;
  on_fit fitAddon_observeResize ;;
  builtin window_addEventListener_resize ;;
  register windowResize ;;
  on_term term_onResize ;;
  register termResize ;;
  on_term term_onData ;;
  register termData ;;
  on_term term_onKey ;;
  register termKey ;;
  ws_listen on_open ;;
  ws_listen on_message ;;
  ws_listen on_error ;;
  ws_listen on_close.

(** [window.addEventListener("resize", () => fitAddon.fit())] *)
Definition window_resize_handler : M unit := on_fit fitAddon_fit.

(** [term.onResize(async (size) => ...)]: the update is issued in the
    handler's turn; nothing follows the [await]. *)
Definition onResize (c r : Z) : M unit :=
  st <- get ;;
  when (is_open st) (invoke (pty_update (id (pty props)) c r)).

(** [term.onData((data) => ...)] *)
Definition onData (data : string) : M unit :=
  st <- get ;;
  when (is_open st) (builtin (ws_send data)).

(** [term.onKey((key) => ...)] *)
Definition onKey (k : string) : M unit :=
  when (k =? "Enter")%string (when (onSubmit props) (invoke props_onSubmit)).

(** [ws.addEventListener("open", ...)] *)
Definition ws_open_handler : M unit :=
  builtin (console_log "WebSocket connected") ;;
  st <- get ;;
  match term st with
  | None => throw (TypeError "term")
  | Some s => invoke (pty_update (id (pty props)) (term_cols s) (term_rows s))
  end.

(** [ws.addEventListener("message", ...)] *)
Definition ws_message_handler (data : string) : M unit :=
  on_term (term_write data).

(** [ws.addEventListener("error", ...)] *)
Definition ws_error_handler : M unit :=
  builtin (console_error "WebSocket error:") ;;
  when (onConnectError props) (invoke props_onConnectError).

(** [ws.addEventListener("close", ...)] *)
Definition ws_close_handler : M unit :=
  builtin (console_log "WebSocket disconnected").

(** The session record [onCleanup] builds: the spread of [local.pty] with
    [buffer], [rows], [cols] and [scrollY] overwritten. *)
Definition captured (s : Surface) : LocalPTY :=
  {| id := id (pty props);
     rows := Some (term_rows s);
     cols := Some (term_cols s);
     buffer := Some (serialize s);
     scrollY := Some (viewportY s);
     others := others (pty props) |}.

(** [ws.close()]: a socket that is connecting or open starts closing. *)
Definition closing (rs : ReadyState) : ReadyState :=
  match rs with
  | CONNECTING | OPEN => CLOSING
  | CLOSING => CLOSING
  | CLOSED => CLOSED
  end.

(** The function given to [onCleanup]. *)
Definition onCleanup_body : M unit :=
  st <- get ;;
  when (serializeAddon st && onCleanup props)
    (invoke serializeAddon_serialize ;;
     match term st with
     | None => throw (TypeError "term")
     | Some s =>
         invoke term_getViewportY ;;
         invoke (props_onCleanup (captured s))
     end) ;;
  match ws st with
  | Some rs => builtin ws_close ;; set_ws (closing rs)
  | None => ret tt
  end ;;
  match term st with
  | Some s => invoke term_dispose ;; set_term (after term_dispose s)
  | None => ret tt
  end.

(** What the environment can do to a mounted component. *)
Inductive Event :=
| connection_opened
| connection_message (data : string)
| connection_error
| connection_closed
| user_input (data : string)
| grid_resized (c r : Z)
| key_pressed (k : string)
| key_down (e : KeyboardEvent)
| viewport_scrolled (line : Z)
| window_resized.

Definition listening (l : Listener) (st : Component) : bool :=
  existsb (Listener_eqb l) (listeners st).

(** Run a handler if the component has installed it. *)
Definition fire (l : Listener) (h : M unit) : M unit :=
  st <- get ;;
  when (listening l st) h.

(** The browser moves the socket's ready state before it fires an event. *)
Definition env_ready (rs : ReadyState) : M unit :=
  st <- get ;;
  match ws st with
  | Some _ => set_ws rs
  | None => ret tt
  end.

(** The library changes the surface before it emits an event. *)
Definition env_surface (c : call) : M unit :=
  st <- get ;;
  match term st with
  | Some s => set_term (after c s)
  | None => ret tt
  end.

Definition dispatch (e : Event) : M unit :=
  match e with
  | connection_opened => env_ready OPEN ;; fire (wsOn on_open) ws_open_handler
  | connection_message d => fire (wsOn on_message) (ws_message_handler d)
  | connection_error => fire (wsOn on_error) ws_error_handler
  | connection_closed => env_ready CLOSED ;; fire (wsOn on_close) ws_close_handler
  | user_input d => fire termData (onData d)
  | grid_resized c r =>
      env_surface (term_resize c r) ;; fire termResize (onResize c r)
  | key_pressed k => fire termKey (onKey k)
  | key_down ev => fire keyHook (customKeyEventHandler ev ;; ret tt)
  | viewport_scrolled n => env_surface (term_scrollToLine n)
  | window_resized => fire windowResize window_resize_handler
  end.

(** The life of one view: each step is a turn of the event loop, and an
    exception that escapes a turn does not stop the next one. *)
Inductive Step := Mount | Deliver (e : Event) | Unmount.

Definition turn (m : M unit) : M unit :=
  fun st =>
    let r := m st in
    {| trace := trace r; final := final r; outcome := Normal tt |}.

Definition step (s : Step) : M unit :=
  turn match s with
       | Mount => onMount_body
       | Deliver e => dispatch e
       | Unmount => onCleanup_body
       end.

Fixpoint run (steps : list Step) : M unit :=
  match steps with
  | [] => ret tt
  | s :: rest => step s ;; run rest
  end.


(** An attached view: the mount body completed, then events. *)
Inductive attached : Component -> Prop :=
| att_mount :
    outcome (onMount_body init) = Normal tt ->
    attached (final (onMount_body init))
| att_event st e : attached st -> attached (final (dispatch e st)).

(** The calls of the restore block when none of them raises: the resize
    it starts with and the scroll it ends with are each made or not. *)
Definition resize_call (p : LocalPTY) : list call :=
  match rows p, cols p with
  | Some r, Some c =>
      if negb (r =? 0) && negb (c =? 0) then [term_resize c r] else []
  | _, _ => []
  end.

Definition scroll_call (p : LocalPTY) : list call :=
  match scrollY p with
  | Some y => if negb (y =? 0) then [term_scrollToLine y] else []
  | None => []
  end.

Definition restore_calls (p : LocalPTY) : list call :=
  match buffer p with
  | Some b =>
      if truthy b
      then resize_call p ++ [term_reset; term_write b] ++ scroll_call p
      else []
  | None => []
  end.

(** The calls of a whole mount when none of them raises. *)
Definition mount_calls : list call :=
  [ new_WebSocket address; new_Term; term_attachCustomKeyEventHandler;
    new_FitAddon; new_SerializeAddon; term_loadAddon theSerializeAddon;
    term_loadAddon theFitAddon; term_open ]
  ++ restore_calls (pty props)
  ++ [ container_focus; fitAddon_fit; fitAddon_observeResize;
       window_addEventListener_resize; term_onResize; term_onData;
       term_onKey; ws_addEventListener on_open;
       ws_addEventListener on_message; ws_addEventListener on_error;
       ws_addEventListener on_close ].

(** The state of an attached view: every binding assigned, every handler
    installed; [rs] is the socket's ready state and [s] the surface. *)
Definition mounted (rs : ReadyState) (s : Surface) : Component :=
  {| ws := Some rs; term := Some s; serializeAddon := true;
     fitAddon := true;
     listeners := [ keyHook; windowResize; termResize; termData; termKey;
                    wsOn on_open; wsOn on_message; wsOn on_error;
                    wsOn on_close ] |}.

(** [serializeAddon] is assigned after [term]: where the serializer
    exists, so does the terminal the teardown reads. *)
Definition coherent (st : Component) : Prop :=
  serializeAddon st = true -> term st <> None.

(** The calls of a teardown when none of them raises. *)
Definition cleanup_calls (st : Component) : list call :=
  (if serializeAddon st && onCleanup props then
     match term st with
     | Some s => [ serializeAddon_serialize; term_getViewportY;
                   props_onCleanup (captured s) ]
     | None => [ serializeAddon_serialize ]
     end
   else [])
  ++ match ws st with Some _ => [ws_close] | None => [] end
  ++ match term st with Some _ => [term_dispose] | None => [] end.

(** A property of a run, in continuation-passing style. *)
Definition wp {A} (m : M A) (st : Component)
    (Q : list call -> Component -> Completion A -> Prop) : Prop :=
  Q (trace (m st)) (final (m st)) (outcome (m st)).

End Component.

Arguments Normal {A} a.
Arguments Abrupt {A} e.

(** Projections of a trace. *)
Definition is_resize (c : call) : bool :=
  match c with term_resize _ _ => true | _ => false end.

Definition is_send (c : call) : bool :=
  match c with ws_send _ => true | _ => false end.

Definition is_update (c : call) : bool :=
  match c with pty_update _ _ _ => true | _ => false end.

Definition is_report (c : call) : bool :=
  match c with
  | console_error _ | props_onConnectError => true
  | _ => false
  end.

(** The surface operations of a restore. *)
Definition is_restore_op (c : call) : bool :=
  match c with
  | term_resize _ _ | term_reset | term_write _ | term_scrollToLine _ => true
  | _ => false
  end.

(** Concrete sessions and a concrete host, for running the component. *)
Definition demo_sdk : Sdk :=
  {| url := "ws://127.0.0.1:4096"; directory := "/home/dev/app" |}.

Definition session_with_snapshot : LocalPTY :=
  {| id := "pty_1"; rows := Some 30; cols := Some 120;
     buffer := Some "hello"; scrollY := Some 5; others := [] |}.

Definition session_sized_only : LocalPTY :=
  {| id := "pty_2"; rows := Some 40; cols := Some 132;
     buffer := None; scrollY := None; others := [] |}.

Definition session_garbled : LocalPTY :=
  {| id := "pty_3"; rows := Some 24; cols := Some 80;
     buffer := Some "garbled"; scrollY := None; others := [] |}.

Definition host_props (p : LocalPTY) : TerminalProps :=
  {| pty := p; onSubmit := true; onCleanup := true; onConnectError := true |}.

(** The reference terminal where nothing raises, the one that rejects the
    snapshot of [session_garbled], the one that cannot be constructed, and an
    attached view over the first. *)
Definition quiet_grid : Platform := grid_platform quiet.

Definition fussy_grid : Platform := grid_platform (rejects "garbled").






Definition demo_attached : @Component quiet_grid :=
  final (onMount_body (P := quiet_grid)
           (host_props session_with_snapshot) demo_sdk init).

(** What goes out to the server: input on the socket and size updates. *)
Definition is_outbound (c : call) : bool :=
  is_send c || is_update c.

(** The calls that build a view or take it down: constructors, the
    installation of handlers, [ws.close()] and [term.dispose()]. *)
Definition is_lifecycle (c : call) : bool :=
  match c with
  | new_WebSocket _ | new_Term | new_FitAddon | new_SerializeAddon
  | term_attachCustomKeyEventHandler | term_loadAddon _ | term_open
  | fitAddon_observeResize | window_addEventListener_resize
  | term_onResize | term_onData | term_onKey | ws_addEventListener _
  | ws_close | term_dispose => true
  | _ => false
  end.

(** The props of the next view of a session: the record the teardown of the
    previous view handed to the host, and the same callbacks. *)
Definition reattach {P : Platform} (props : TerminalProps) (s : Surface)
  : TerminalProps :=
  {| pty := captured props s;
     onSubmit := onSubmit props;
     onCleanup := onCleanup props;
     onConnectError := onConnectError props |}.

(** A terminal as a shell session may leave it. *)
Definition demo_grid : @Surface quiet_grid :=
  {| g_cols := 100; g_rows := 40; g_top := 7; g_text := "$ ls";
     g_disposed := false |}.

End TerminalView.

(* ===================================================================== *)
(** ** shell-history.ts: suggestions from the history                     *)
(* ===================================================================== *)

Module ShellSuggest.
Import JsString ShellHistory.

(** The loop of [getSuggestion]: the first entry that starts with the input,
    case ignored, and is not the input itself gives what follows the
    input's length in it. *)
Fixpoint suggest_in (input lowerInput : string) (history : list string)
  : option string :=
  match history with
  | [] => None
  | cmd :: rest =>
      if startsWith (toLowerCase cmd) lowerInput && negb (cmd =? input)
      then Some (slice (String.length input) cmd)
      else suggest_in input lowerInput rest
  end.

(** [getSuggestion]; [None] is [null]. *)
Definition getSuggestion (input : string) (st : State) : option string * State :=
  if negb (truthy (trim input)) then (None, st)
  else
    let (history, st1) := loadHistory st in
    (suggest_in input (toLowerCase input) history, st1).

(** The loop of [getMatchingCommands]: [matches] is the array built so far;
    the limit is tested after each push. *)
Fixpoint matching_loop (lowerPrefix : string) (limit : Z)
    (history matches : list string) : list string :=
  match history with
  | [] => matches
  | cmd :: rest =>
      if startsWith (toLowerCase cmd) lowerPrefix then
        let matches' := (matches ++ [cmd])%list in
        if (limit <=? Z.of_nat (length matches'))%Z then matches'
        else matching_loop lowerPrefix limit rest matches'
      else matching_loop lowerPrefix limit rest matches
  end.

(** [getMatchingCommands(prefix, limit = 10)]; an omitted limit is [None]. *)
Definition getMatchingCommands (prefix : string) (limit : option Z) (st : State)
  : list string * State :=
  let limit := match limit with Some n => n | None => 10%Z end in
  if negb (truthy (trim prefix)) then ([], st)
  else
    let (history, st1) := loadHistory st in
    (matching_loop (toLowerCase prefix) limit history [], st1).

(** No line feed in a string. *)
Definition one_line (s : string) : Prop :=
  ~ In LF (list_ascii_of_string s).

(** Whether an entry is offered for what was typed. *)
Definition offers (typed cmd : string) : bool :=
  startsWith (toLowerCase cmd) (toLowerCase typed).

(** A module whose cache holds 1000 entries. *)
Definition full_state : State :=
  {| historyCache := Some (repeat "x" MAX_HISTORY);
     disk := {| file := None; read_throws := false; write_throws := false |} |}.

End ShellSuggest.

(* ===================================================================== *)
(** ** shell-history.ts: completion of a path                             *)
(* ===================================================================== *)

Module PathCompletion.
Import JsString.

(** An entry of [fs.readdirSync(dir, { withFileTypes: true })]. *)
Record Dirent := { name : string; isDirectory : bool }.

(** What the file system answers for a directory: [existsSync] is false,
    [readdirSync] raises, or the entries. *)
Inductive Listing :=
| Missing
| Unreadable
| Entries (entries : list Dirent).

(** What the module takes from Node: the home directory, the functions of
    [path] it calls, and the directories of the disk. *)
Class Node := {
  homedir : string;
  path_join : string -> string -> string;
  path_dirname : string -> string;
  path_basename : string -> string;
  path_resolve : string -> string;
  readdir : string -> Listing
}.

(** [common = common.slice(0, j)] after the inner [while]: the longest start
    of [common] that [name] shares with it, case ignored. *)
Fixpoint shared (common name : string) : string :=
  match common, name with
  | String a r, String b r' =>
      if Ascii.eqb (lower_char a) (lower_char b) then String a (shared r r')
      else ""
  | _, _ => ""
  end.

(** The filter over the entries: hidden ones only for a dotted prefix, and
    the name must start with the prefix, case ignored. *)
Definition candidate (prefix : string) (entry : Dirent) : bool :=
  negb (startsWith (name entry) "." && negb (startsWith prefix "."))
  && startsWith (toLowerCase (name entry)) (toLowerCase prefix).

(** What is returned once the matches are known. *)
Definition complete_among (prefix : string) (matches : list Dirent)
  : option string :=
  match matches with
  | [] => None
  | [single] =>
      Some (slice (String.length prefix) (name single)
            ++ (if isDirectory single then "/" else " "))
  | first :: others =>
      let common := fold_left (fun c m => shared c (name m)) others (name first) in
      if (String.length prefix <? String.length common)%nat
      then Some (slice (String.length prefix) common)
      else None
  end.

Section WithNode.
Context {N : Node}.

(** [expandTilde] *)
Definition expandTilde (filepath : string) : string :=
  if startsWith filepath "~/" then path_join homedir (slice 2 filepath)
  else if filepath =? "~" then homedir
  else filepath.

(** [getPathCompletion]; the whole body is inside [try]/[catch]. *)
Definition getPathCompletion (input : string) : option string :=
  let trimmed := trimEnd input in
  let parts := split_spaces trimmed in
  let lastPart := last parts "" in
  if negb (truthy lastPart) then None
  else
    let expandedPath := expandTilde lastPart in
    if endsWith lastPart "/" then None
    else
      let dirPath :=
        if truthy (path_dirname expandedPath) then path_dirname expandedPath
        else "." in
      let prefix := path_basename expandedPath in
      if negb (truthy prefix) then None
      else
        let resolvedDir := path_resolve dirPath in
        match readdir resolvedDir with
        | Missing => None
        | Unreadable => None
        | Entries entries =>
            complete_among prefix (filter (candidate prefix) entries)
        end.

(** The values [getPathCompletion] computes on its way: the last word of
    the input, the name typed so far, and what the disk lists for the
    directory it is looked up in. *)
Definition last_word (input : string) : string :=
  last (split_spaces (trimEnd input)) "".

Definition typed_name (input : string) : string :=
  path_basename (expandTilde (last_word input)).

Definition listed (input : string) : Listing :=
  let dirname := path_dirname (expandTilde (last_word input)) in
  readdir (path_resolve (if truthy dirname then dirname else ".")).

End WithNode.

(** An entry whose name does not start with a dot, and a disk that never
    lists the others. *)
Definition visible (entry : Dirent) : bool :=
  negb (startsWith (name entry) ".").

Definition hide_dotfiles (N : Node) : Node :=
  {| homedir := homedir;
     path_join := path_join;
     path_dirname := path_dirname;
     path_basename := path_basename;
     path_resolve := path_resolve;
     readdir := fun d =>
       match readdir d with
       | Entries entries => Entries (filter visible entries)
       | other => other
       end |}.

(** A small disk for running the completion: one project directory, and
    [path] functions that are right for the plain relative and absolute
    paths used here. *)
Fixpoint after_last_slash (s : string) : string :=
  match s with
  | "" => ""
  | String c r =>
      if existsb (Ascii.eqb "/"%char) (list_ascii_of_string r)
      then after_last_slash r
      else if Ascii.eqb c "/"%char then r else s
  end.

Fixpoint before_last_slash (s : string) : string :=
  match s with
  | "" => ""
  | String c r =>
      if existsb (Ascii.eqb "/"%char) (list_ascii_of_string r)
      then String c (before_last_slash r)
      else ""
  end.

Definition demo_entries : list Dirent :=
  [ {| name := ".git"; isDirectory := true |};
    {| name := "README.md"; isDirectory := false |};
    {| name := "src"; isDirectory := true |};
    {| name := "script"; isDirectory := true |};
    {| name := "Screenshot.png"; isDirectory := false |} ].

Definition demo_node : Node :=
  {| homedir := "/home/dev";
     path_join := fun a b => (a ++ "/" ++ b)%string;
     path_dirname := fun p =>
       if existsb (Ascii.eqb "/"%char) (list_ascii_of_string p)
       then (if before_last_slash p =? "" then "/" else before_last_slash p)
       else ".";
     path_basename := after_last_slash;
     path_resolve := fun d =>
       if d =? "." then "/home/dev/app"
       else if startsWith d "/" then d
       else ("/home/dev/app/" ++ d)%string;
     readdir := fun d =>
       if d =? "/home/dev/app" then Entries demo_entries else Missing |}.

End PathCompletion.

(* ===================================================================== *)
(** ** Facts about the string primitives                                  *)
(* ===================================================================== *)

Module JsStringFacts.
Import JsString.

Lemma truthy_true s : truthy s = true <-> s <> "".
Proof.
  unfold truthy. rewrite negb_true_iff. split.
  - intros H E. subst s. discriminate.
  - intros H. destruct s; [congruence | reflexivity].
Qed.

Lemma truthy_false s : truthy s = false <-> s = "".
Proof.
  unfold truthy. rewrite negb_false_iff. split.
  - destruct s; [reflexivity | discriminate].
  - intros ->. reflexivity.
Qed.

Example trim_pads : trim ("  ls -la " ++ nl) = "ls -la".
Proof. reflexivity. Qed.

Example trim_blank : trim (" " ++ nl ++ " ") = "".
Proof. reflexivity. Qed.

Example split_trailing : split_lines ("a" ++ nl ++ "b" ++ nl) = ["a"; "b"; ""].
Proof. reflexivity. Qed.

Example lower_mixed : toLowerCase "Ctrl-`" = "ctrl-`".
Proof. reflexivity. Qed.

Lemma filter_truthy_nonempty l :
  Forall (fun e => e <> "") (filter truthy l).
Proof.
  induction l as [|x l IH]; simpl; [constructor|].
  destruct (truthy x) eqn:E; [|exact IH].
  constructor; [now apply truthy_true | exact IH].
Qed.

(** The backtick has no case: it is the only key that lower-cases to it. *)
Lemma lower_char_backtick c : lower_char c = "`"%char <-> c = "`"%char.
Proof.
  destruct c as [[] [] [] [] [] [] [] []]; vm_compute;
    split; intros H; first [exact H | discriminate H | reflexivity].
Qed.

Lemma toLowerCase_backtick k : toLowerCase k = "`" <-> k = "`".
Proof.
  destruct k as [|c [|c' k]]; cbn [toLowerCase]; split; intros H;
    try discriminate H; try reflexivity.
  - injection H as H. apply (proj1 (lower_char_backtick c)) in H. now subst.
  - injection H as ->. reflexivity.
Qed.

End JsStringFacts.

(* ===================================================================== *)
(** ** Facts about shell-history.ts                                       *)
(* ===================================================================== *)

Module ShellHistoryFacts.
Import JsString JsStringFacts ShellHistory.

Abbreviation occurrences := (count_occ string_dec).
Abbreviation nonempty := (Forall (fun e : string => e <> "")).

Lemma indexOf_None x l : indexOf x l = None -> occurrences l x = 0.
Proof.
  induction l as [|y l IH]; simpl; [reflexivity|].
  destruct (String.eqb_spec y x) as [->|Hne]; [discriminate|].
  destruct (indexOf x l); [discriminate|]. intros _.
  destruct (string_dec y x); [contradiction | now apply IH].
Qed.

Lemma indexOf_Some x l i :
  indexOf x l = Some i ->
  occurrences (splice1 i l) x = pred (occurrences l x).
Proof.
  revert i. induction l as [|y l IH]; simpl; intros i; [discriminate|].
  destruct (String.eqb_spec y x) as [->|Hne].
  - intros [= <-]. unfold splice1. simpl.
    destruct (string_dec x x); [reflexivity | contradiction].
  - destruct (indexOf x l) as [j|] eqn:E; [|discriminate].
    intros [= <-]. specialize (IH j eq_refl).
    unfold splice1 in *. simpl.
    destruct (string_dec y x); [contradiction | exact IH].
Qed.

Lemma splice1_nonempty i l : nonempty l -> nonempty (splice1 i l).
Proof.
  intros H. unfold splice1. apply Forall_app. split.
  - rewrite <- (firstn_skipn i l) in H. apply Forall_app in H. tauto.
  - rewrite <- (firstn_skipn (S i) l) in H. apply Forall_app in H. tauto.
Qed.

Lemma truncate_length l : length (truncate l) <= MAX_HISTORY.
Proof.
  unfold truncate. destruct (Nat.ltb_spec MAX_HISTORY (length l)).
  - apply firstn_le_length.
  - assumption.
Qed.

Lemma truncate_cons x l : exists k, truncate (x :: l) = x :: firstn k l.
Proof.
  unfold truncate. destruct (MAX_HISTORY <? length (x :: l))%nat.
  - exists (pred MAX_HISTORY). reflexivity.
  - exists (length l). now rewrite firstn_all.
Qed.

Lemma firstn_nonempty k l : nonempty l -> nonempty (firstn k l).
Proof.
  intros H. rewrite <- (firstn_skipn k l) in H.
  apply Forall_app in H. tauto.
Qed.

Lemma firstn_absent k l x : occurrences l x = 0 -> occurrences (firstn k l) x = 0.
Proof.
  intros H. apply count_occ_not_In. intros Hin.
  apply (count_occ_not_In string_dec l x) in H. apply H.
  rewrite <- (firstn_skipn k l). apply in_or_app. now left.
Qed.

(** What [loadHistory] returns has no empty entry when the cache has
    none, and it leaves such a cache behind. *)
Lemma loadHistory_nonempty st :
  cache_nonempty_entries st ->
  nonempty (fst (loadHistory st)) /\
  historyCache (snd (loadHistory st)) = Some (fst (loadHistory st)).
Proof.
  unfold cache_nonempty_entries, loadHistory.
  destruct (historyCache st) as [h|] eqn:E; simpl.
  - intros H. split; [exact H | exact E].
  - intros _. destruct (file (disk st)); [destruct (read_throws (disk st))|];
      simpl; split; try reflexivity; try constructor.
    apply filter_truthy_nonempty.
Qed.

Lemma try_write_cache text st : historyCache (try_write text st) = historyCache st.
Proof. unfold try_write. now destruct (write_throws (disk st)). Qed.

(** The state [addToHistory] leaves for a command that is not blank. *)
Lemma addToHistory_cache command st :
  trim command <> "" ->
  historyCache (addToHistory command st) =
    Some (truncate (trim command ::
                    match indexOf (trim command) (history_of st) with
                    | Some i => splice1 i (history_of st)
                    | None => history_of st
                    end)).
Proof.
  intros Hne. unfold addToHistory, history_of.
  apply truthy_true in Hne. rewrite Hne. simpl.
  destruct (loadHistory st) as [h st1]. simpl.
  now rewrite try_write_cache.
Qed.

Lemma addToHistory_blank command st :
  trim command = "" -> addToHistory command st = st.
Proof.
  intros E. unfold addToHistory. apply truthy_false in E. now rewrite E.
Qed.

(** Every cache the module can hold is free of empty entries. *)
Lemma possible_nonempty st : possible st -> cache_nonempty_entries st.
Proof.
  induction 1 as [d | st _ IH | st c _ IH | st d _ IH].
  - exact I.
  - destruct (loadHistory_nonempty st IH) as [Hn Hc].
    unfold cache_nonempty_entries. now rewrite Hc.
  - destruct (string_dec (trim c) "") as [E|Hne].
    + now rewrite (addToHistory_blank _ _ E).
    + unfold cache_nonempty_entries. rewrite (addToHistory_cache c st Hne).
      destruct (loadHistory_nonempty st IH) as [Hn _]. fold (history_of st) in Hn.
      destruct (truncate_cons (trim c)
                  match indexOf (trim c) (history_of st) with
                  | Some i => splice1 i (history_of st)
                  | None => history_of st
                  end) as [k ->].
      constructor; [exact Hne|]. apply firstn_nonempty.
      destruct (indexOf (trim c) (history_of st));
        [now apply splice1_nonempty | exact Hn].
  - exact IH.
Qed.

(** C10 (counterexample). A history file that holds ["ls"] on two lines
    (the file the module itself writes after the two-line command
    ["ls\nls"]) is loaded as [["ls"; "ls"]]; [addToHistory "ls"] removes
    only the first of them before it puts ["ls"] in front, so the command
    then occurs twice, not once. *)
Lemma addToHistory_keeps_a_duplicate :
  disk (addToHistory ("ls" ++ nl ++ "ls") blank_start) = twice_disk /\
  possible twice_start /\
  trim "ls" = "ls" /\
  historyCache (addToHistory "ls" twice_start) = Some ["ls"; "ls"] /\
  occurrences ["ls"; "ls"] "ls" <> 1.
Proof.
  split; [reflexivity|].
  split; [apply reach_start|]. split; [reflexivity|].
  split; [reflexivity|]. vm_compute. discriminate.
Qed.

(** C10 (amended). After [addToHistory command] in any state the module can
    reach: a blank command changes nothing; otherwise the trimmed command
    is at index 0, no entry is empty, there are at most 1000 entries, and
    the trimmed command occurs exactly once provided it occurred at most
    once in the history the call started from. *)
Theorem addToHistory_post st command :
  possible st ->
  (trim command = "" -> addToHistory command st = st) /\
  (trim command <> "" ->
   exists h,
     historyCache (addToHistory command st) = Some h /\
     nth_error h 0 = Some (trim command) /\
     nonempty h /\
     length h <= MAX_HISTORY /\
     (occurrences (history_of st) (trim command) <= 1 ->
      occurrences h (trim command) = 1)).
Proof.
  intros Hr. split; [apply addToHistory_blank|]. intros Hne.
  pose proof (possible_nonempty (reach_add command Hr)) as Hinv.
  unfold cache_nonempty_entries in Hinv.
  rewrite (addToHistory_cache command st Hne) in *.
  eexists. split; [reflexivity|].
  split; [|split; [exact Hinv|split; [apply truncate_length|]]].
  - destruct (truncate_cons (trim command)
                match indexOf (trim command) (history_of st) with
                | Some i => splice1 i (history_of st)
                | None => history_of st
                end) as [k ->]. reflexivity.
  - intros Hocc.
    assert (Hrest : occurrences
              match indexOf (trim command) (history_of st) with
              | Some i => splice1 i (history_of st)
              | None => history_of st
              end (trim command) = 0).
    { destruct (indexOf (trim command) (history_of st)) as [i|] eqn:E.
      - rewrite (indexOf_Some _ _ E). lia.
      - now apply indexOf_None. }
    destruct (truncate_cons (trim command)
                match indexOf (trim command) (history_of st) with
                | Some i => splice1 i (history_of st)
                | None => history_of st
                end) as [k ->].
    rewrite count_occ_cons_eq by reflexivity.
    now rewrite (firstn_absent k _ _ Hrest).
Qed.

Lemma addToHistory_post_witness :
  possible blank_start /\
  (trim "  git status " <> "" ->
   exists h,
     historyCache (addToHistory "  git status " blank_start) = Some h /\
     nth_error h 0 = Some (trim "  git status ") /\
     nonempty h /\
     length h <= MAX_HISTORY /\
     (occurrences (history_of blank_start) (trim "  git status ") <= 1 ->
      occurrences h (trim "  git status ") = 1)).
Proof.
  split; [apply reach_start|].
  apply (addToHistory_post "  git status " (reach_start (disk blank_start))).
Defined.

End ShellHistoryFacts.

(* ===================================================================== *)
(** ** Facts about the terminal component                                 *)
(* ===================================================================== *)

Module TerminalViewFacts.
Import JsString JsStringFacts TerminalView.

Section Rules.
Context {P : Platform}.

Lemma wp_bind A B (m : M A) (f : A -> M B) st Q :
  wp m st (fun t s o =>
    match o with
    | Normal a => wp (f a) s (fun t' s' o' => Q (t ++ t')%list s' o')
    | Abrupt e => Q t s (Abrupt e)
    end) ->
  wp (bind m f) st Q.
Proof. unfold wp, bind. destruct (outcome (m st)); simpl; auto. Qed.

Lemma wp_ret A (a : A) st (Q : _ -> _ -> _ -> Prop) :
  Q [] st (Normal a) -> wp (ret a) st Q.
Proof. auto. Qed.

Lemma wp_get st (Q : _ -> _ -> _ -> Prop) :
  Q [] st (Normal st) -> wp get st Q.
Proof. auto. Qed.

Lemma wp_put st' st (Q : _ -> _ -> _ -> Prop) :
  Q [] st' (Normal tt) -> wp (put st') st Q.
Proof. auto. Qed.

Lemma wp_throw A e st (Q : _ -> _ -> Completion A -> Prop) :
  Q [] st (Abrupt e) -> wp (throw e) st Q.
Proof. auto. Qed.

Lemma wp_builtin c st (Q : _ -> _ -> _ -> Prop) :
  Q [c] st (Normal tt) -> wp (builtin c) st Q.
Proof. auto. Qed.

Lemma wp_invoke c st (Q : _ -> _ -> _ -> Prop) :
  (throws c = true -> Q [c] st (Abrupt (Thrown c))) ->
  (throws c = false -> Q [c] st (Normal tt)) ->
  wp (invoke c) st Q.
Proof. unfold wp, invoke; simpl. destruct (throws c); auto. Qed.

End Rules.

(** One step of symbolic execution of a run. *)
Ltac wp_simpl :=
  first
    [ progress cbn [term ws serializeAddon fitAddon listeners is_open
                    listening existsb Listener_eqb WsEvent_eqb mounted
                    init orb andb]
    | progress cbv beta iota
    | progress unfold set_ws, set_term, set_serializeAddon, set_fitAddon,
        register, on_term, on_fit, ws_listen, when, fire, env_ready,
        env_surface ].

Ltac wp_step :=
  lazymatch goal with
  | |- wp (bind _ _) _ _ => apply wp_bind
  | |- wp (ret _) _ _ => apply wp_ret
  | |- wp get _ _ => apply wp_get
  | |- wp (put _) _ _ => apply wp_put
  | |- wp (throw _) _ _ => apply wp_throw
  | |- wp (builtin _) _ _ => apply wp_builtin
  | |- wp (invoke _) _ _ => apply wp_invoke; intros ?
  | |- wp (if ?b then _ else _) _ _ => first [ wp_simpl | destruct b eqn:? ]
  | |- wp (match ?x with Some _ => _ | None => _ end) _ _ =>
      first [ wp_simpl | destruct x eqn:? ]
  | |- wp _ _ _ => wp_simpl
  end.

Ltac wp_run := repeat wp_step.

(** Case analysis on the session the view was given. *)
Ltac split_pty props :=
  unfold restore, restore_calls, resize_call, scroll_call, when;
  destruct props as [[i [r|] [c|] [b|] [y|] o] s1 s2 s3];
  cbn [pty rows cols buffer scrollY id others
       onCleanup onSubmit onConnectError];
  repeat match goal with
    | |- context [if truthy ?b then _ else _] => destruct (truthy b) eqn:?
    | |- context [if negb ?x && negb ?y then _ else _] =>
        destruct (negb x && negb y) eqn:?
    | |- context [if negb ?x then _ else _] => destruct (negb x) eqn:?
    end.

(** A projection of [mount_calls], computed by cases on the session. *)
Ltac filter_mount_calls props :=
  unfold mount_calls, restore_calls, resize_call, scroll_call;
  rewrite !filter_app;
  cbn [filter is_restore_op is_resize is_report app];
  rewrite app_nil_r;
  destruct (buffer (pty props)) as [b|]; [|reflexivity];
  destruct (truthy b); [|reflexivity];
  destruct (rows (pty props)) as [r|], (cols (pty props)) as [c|],
    (scrollY (pty props)) as [y|];
  repeat match goal with
    | |- context [if ?x then _ else _] => destruct x
    end; reflexivity.

Section Mount.
Context {P : Platform}.
Variable props : TerminalProps.
Variable sdk : Sdk.

(** The mount body in one statement: whatever raises, its calls are an
    initial segment of [mount_calls] and its bindings stay coherent; it
    never dereferences an unassigned binding; when it completes it has
    made all the calls and the view is attached. *)
Lemma mount_spec :
  wp (onMount_body props sdk) init
     (fun t st o =>
        (exists rest, mount_calls props sdk = (t ++ rest)%list) /\
        coherent st /\
        (o = Normal tt ->
         t = mount_calls props sdk /\ exists s, st = mounted CONNECTING s) /\
        (forall e, o = Abrupt e ->
         exists c, e = Thrown c /\ throws c = true /\ In c t)).
Proof.
  unfold onMount_body, mount_calls.
  split_pty props; wp_run;
    (split; [eexists; reflexivity |
     split; [unfold coherent; cbn; congruence |
     split; [intros E; first [discriminate E |
               split; [reflexivity | eexists; reflexivity]] |
             intros e E; first [discriminate E |
               injection E as <-; eexists;
               split; [reflexivity |
               split; [eassumption |
               cbn [app In]; repeat first [left; reflexivity | right]]]]]]]).
Qed.

End Mount.

Section Claims.
Context {P : Platform}.
Variable props : TerminalProps.
Variable sdk : Sdk.

(** *** Frames: what events leave alone *)

Lemma dispatch_mounted e rs s :
  exists rs' s', final (dispatch props e (mounted rs s)) = mounted rs' s'.
Proof.
  change (wp (dispatch props e) (mounted rs s)
            (fun _ st _ => exists rs' s', st = mounted rs' s')).
  destruct e; unfold dispatch, ws_open_handler, ws_message_handler,
    ws_error_handler, ws_close_handler, onData, onResize, onKey,
    window_resize_handler, customKeyEventHandler;
    wp_run; eexists; eexists; reflexivity.
Qed.

Lemma attached_mounted st :
  attached props sdk st -> exists rs s, st = mounted rs s.
Proof.
  induction 1 as [Hn | st e _ (rs & s & ->)].
  - destruct (mount_spec props sdk) as (_ & _ & Hm & _).
    destruct (Hm Hn) as (_ & s & ->). eauto.
  - apply dispatch_mounted.
Qed.



(** *** The teardown *)

Lemma cleanup_spec st :
  coherent st ->
  wp (onCleanup_body props) st
     (fun t st' o =>
        (exists rest, cleanup_calls props st = (t ++ rest)%list) /\
        (forall v, o <> Abrupt (TypeError v)) /\
        (o = Normal tt -> t = cleanup_calls props st) /\
        ((forall c, In c t -> throws c = false) -> o = Normal tt)).
Proof.
  intros Hc. unfold onCleanup_body, cleanup_calls.
  destruct st as [[rs|] [s|] [|] fa ls]; unfold coherent in Hc; cbn in Hc;
    try (exfalso; now apply Hc);
    cbn [serializeAddon term ws andb]; wp_run;
    (split; [eexists; reflexivity |
     split; [intros v; discriminate |
     split; [intros E; first [discriminate E | reflexivity] |
             intros Hall;
             first [ reflexivity
                   | exfalso;
                     match goal with
                     | H : throws ?c = true |- _ =>
                         rewrite (Hall c) in H;
                         [ discriminate
                         | cbn [app In]; repeat first [left; reflexivity | right] ]
                     end ]]]]).
Qed.

(** C1. Tearing down an attached view: the calls of the teardown are, in
    this order, the capture (the serialization, the read of the viewport
    and the hand-over of the updated session to the host's [onCleanup],
    when the host passed one) and only then [ws.close()] and
    [term.dispose()]; they are made in one turn; whatever raises, the calls
    made are an initial segment of that list; and the record handed over
    carries the snapshot, the rows and columns and the scroll offset of the
    surface as it is at that moment. *)
Theorem cleanup_captures_before_teardown st :
  attached props sdk st ->
  exists s,
    term st = Some s /\
    (exists rest,
        ((if onCleanup props
          then [ serializeAddon_serialize; term_getViewportY;
                 props_onCleanup (captured props s) ]
          else [])
         ++ [ws_close; term_dispose])%list
        = (trace (onCleanup_body props st) ++ rest)%list) /\
    (outcome (onCleanup_body props st) = Normal tt ->
     trace (onCleanup_body props st)
     = ((if onCleanup props
         then [ serializeAddon_serialize; term_getViewportY;
                props_onCleanup (captured props s) ]
         else [])
        ++ [ws_close; term_dispose])%list) /\
    captured props s
    = {| id := id (pty props);
         rows := Some (term_rows s);
         cols := Some (term_cols s);
         buffer := Some (serialize s);
         scrollY := Some (viewportY s);
         others := others (pty props) |}.
Proof.
  intros Ha. destruct (attached_mounted Ha) as (rs & s & ->).
  exists s. split; [reflexivity|].
  assert (Hc : coherent (mounted rs s)) by (unfold coherent; discriminate).
  pose proof (cleanup_spec Hc) as (Hpre & _ & Hn & _).
  unfold cleanup_calls in Hpre, Hn.
  cbn [mounted serializeAddon term ws andb] in Hpre, Hn.
  split; [exact Hpre|]. split; [exact Hn | reflexivity].
Qed.



(** *** The mount *)

Lemma mount_restore_ops :
  filter is_restore_op (mount_calls props sdk) = restore_calls (pty props).
Proof.
  filter_mount_calls props.
Qed.

Lemma mount_resizes :
  filter is_resize (mount_calls props sdk)
  = match buffer (pty props) with
    | Some b => if truthy b then resize_call (pty props) else []
    | None => []
    end.
Proof.
  filter_mount_calls props.
Qed.

Lemma mount_reports_nothing :
  filter is_report (trace (onMount_body props sdk init)) = [].
Proof.
  destruct (mount_spec props sdk) as ([rest Hpre] & _).
  assert (H : filter is_report (mount_calls props sdk) = []).
  { filter_mount_calls props. }
  rewrite Hpre, filter_app in H. now apply app_eq_nil in H.
Qed.

(** C2. Attaching a session that carries a snapshot [b] (a non-empty
    string): the surface operations of the mount are [resize] (made when
    the stored rows and columns are both present and not zero), then
    [reset], then [write b], then [scrollToLine] (made when the stored
    offset is present and not zero), in this order and nothing else;
    whatever raises on the way, the operations made are an initial
    segment of that list, so no write comes before the resize and no
    scroll before the write. *)
Theorem restore_in_fixed_order b :
  buffer (pty props) = Some b ->
  b <> "" ->
  (exists rest,
      (resize_call (pty props) ++ [term_reset; term_write b]
         ++ scroll_call (pty props))%list
      = (filter is_restore_op (trace (onMount_body props sdk init)) ++ rest)%list) /\
  (outcome (onMount_body props sdk init) = Normal tt ->
   filter is_restore_op (trace (onMount_body props sdk init))
   = (resize_call (pty props) ++ [term_reset; term_write b]
        ++ scroll_call (pty props))%list).
Proof.
  intros Hb Hne. apply truthy_true in Hne.
  pose proof mount_restore_ops as Hops.
  unfold restore_calls in Hops. rewrite Hb, Hne in Hops.
  destruct (mount_spec props sdk) as ([rest Hpre] & _ & Hm & _).
  split.
  - exists (filter is_restore_op rest).
    now rewrite <- filter_app, <- Hpre.
  - intros Hn. destruct (Hm Hn) as [-> _]. exact Hops.
Qed.

(** C4 (amended). In an attach that completes, [resize] is called with
    the stored columns and rows exactly when the session carries a
    non-empty snapshot and the stored rows and columns are both present
    and not zero; for a session without a snapshot the component makes no
    [resize] call at all. *)
Theorem resize_needs_a_snapshot :
  outcome (onMount_body props sdk init) = Normal tt ->
  filter is_resize (trace (onMount_body props sdk init))
  = match buffer (pty props), rows (pty props), cols (pty props) with
    | Some b, Some r, Some c =>
        if truthy b && (negb (r =? 0)%Z && negb (c =? 0)%Z)
        then [term_resize c r] else []
    | _, _, _ => []
    end.
Proof.
  intros Hn. destruct (mount_spec props sdk) as (_ & _ & Hm & _).
  destruct (Hm Hn) as [-> _]. rewrite mount_resizes. unfold resize_call.
  destruct (buffer (pty props)) as [b|]; [|reflexivity].
  destruct (truthy b), (rows (pty props)), (cols (pty props)); reflexivity.
Qed.

(** C7 (amended). Attaching a session whose snapshot the surface
    rejects ([term.write(snapshot)] raises): the mount body has no handler for
    it. It ends abruptly with the exception of a call that raised (of that
    very write when nothing before it raised), reports nothing, and
    leaves the view without any of the handlers installed after the
    restore: only the key hook is in place. *)
Theorem failed_restore_aborts_mount snapshot :
  buffer (pty props) = Some snapshot ->
  snapshot <> "" ->
  throws (term_write snapshot) = true ->
  (exists c,
      outcome (onMount_body props sdk init) = Abrupt (Thrown c) /\
      throws c = true /\ In c (trace (onMount_body props sdk init))) /\
  ((forall c, In c (trace (onMount_body props sdk init)) ->
              c <> term_write snapshot -> throws c = false) ->
   outcome (onMount_body props sdk init) = Abrupt (Thrown (term_write snapshot))) /\
  filter is_report (trace (onMount_body props sdk init)) = [] /\
  (forall l, l <> keyHook ->
             listening l (final (onMount_body props sdk init)) = false).
Proof.
  intros Hb Hne Hw. apply truthy_true in Hne.
  assert (Hwp : wp (onMount_body props sdk) init
            (fun t st o =>
               (exists c, o = Abrupt (Thrown c) /\ throws c = true /\ In c t) /\
               ((forall c, In c t -> c <> term_write snapshot -> throws c = false) ->
                o = Abrupt (Thrown (term_write snapshot))) /\
               (forall l, l <> keyHook -> listening l st = false))).
  { unfold onMount_body. revert Hb Hne Hw.
    split_pty props; intros Hb Hne Hw; try discriminate Hb;
      injection Hb as ->;
      try match goal with
          | H : truthy snapshot = false |- _ =>
              rewrite Hne in H; discriminate H
          end;
      wp_run;
      try match goal with
          | H : throws (term_write snapshot) = false |- _ =>
              rewrite Hw in H; discriminate H
          end;
      (split; [eexists; split; [reflexivity | split; [eassumption |
                 cbn [app In]; repeat first [left; reflexivity | right]]] |
       split; [intros Hall;
               first [ reflexivity
                     | exfalso;
                       match goal with
                       | H : throws ?c = true |- _ =>
                           rewrite (Hall c) in H;
                           [ discriminate
                           | cbn [app In]; repeat first [left; reflexivity | right]
                           | discriminate ]
                       end ] |
               intros l Hl; destruct l; first [reflexivity | now elim Hl]]]). }
  destruct Hwp as (H1 & H2 & H3).
  split; [exact H1|]. split; [exact H2|].
  split; [apply mount_reports_nothing | exact H3].
Qed.

(** *** The handlers *)

(** C5. When the socket of an attached view opens, the open handler logs
    and then issues one size update, carrying the columns and rows the
    surface has at that moment; it issues no other update and sends no
    data, so nothing is sent before the report in that turn. *)
Theorem open_reports_dimensions_once st :
  attached props sdk st ->
  exists s,
    term st = Some s /\
    trace (dispatch props connection_opened st)
    = [ console_log "WebSocket connected";
        pty_update (id (pty props)) (term_cols s) (term_rows s) ] /\
    length (filter is_update (trace (dispatch props connection_opened st))) = 1 /\
    filter is_send (trace (dispatch props connection_opened st)) = [].
Proof.
  intros Ha. destruct (attached_mounted Ha) as (rs & s & ->).
  exists s. repeat split; reflexivity.
Qed.

Lemma dropped_input_leaves_no_mark st data :
  is_open st = false ->
  dispatch props (user_input data) st
  = {| trace := []; final := st; outcome := Normal tt |}.
Proof.
  intros H. unfold dispatch, fire, onData, bind, get, when, ret.
  cbn. destruct (listening termData st); cbn; [rewrite H|]; reflexivity.
Qed.

(** C3. The input handler sends the data of an [onData] event on the
    socket if and only if the socket exists and its ready state is [OPEN]
    at that moment: one [ws.send] of the data, as they are, when it is,
    and no call at all when the socket is connecting, closing, closed or
    not yet created. It never raises and leaves the component unchanged,
    so nothing is kept of an input that was dropped: any later run of the
    view, whatever happens to the socket in it, is the run it would have
    been without that input. *)
Theorem input_is_sent_iff_open st data :
  outcome (onData data st) = Normal tt /\
  final (onData data st) = st /\
  (ws st = Some OPEN -> trace (onData data st) = [ws_send data]) /\
  (ws st <> Some OPEN -> trace (onData data st) = []) /\
  (In (ws_send data) (trace (onData data st)) <-> ws st = Some OPEN) /\
  (ws st <> Some OPEN ->
   forall later,
     run props sdk (Deliver (user_input data) :: later) st
     = run props sdk later st).
Proof.
  assert (Ho : is_open st = true <-> ws st = Some OPEN).
  { unfold is_open. destruct (ws st) as [[]|]; split; intros H;
      first [reflexivity | discriminate H]. }
  assert (Hd : onData data st
               = {| trace := if is_open st then [ws_send data] else [];
                    final := st; outcome := Normal tt |}).
  { unfold onData, bind, get, when, builtin, ret. cbn.
    destruct (is_open st); reflexivity. }
  assert (Hc : ws st <> Some OPEN -> is_open st = false).
  { intros H. destruct (is_open st); [|reflexivity].
    exfalso. apply H. now apply Ho. }
  rewrite Hd. cbn [trace final outcome].
  split; [reflexivity|]. split; [reflexivity|].
  split; [intros H; apply Ho in H; now rewrite H|].
  split; [intros H; now rewrite (Hc H)|].
  split.
  - rewrite <- Ho. destruct (is_open st); cbn; split; intros H;
      first [reflexivity | now left | contradiction | discriminate H].
  - intros E later. cbn [run]. unfold bind, step, turn.
    rewrite (@dropped_input_leaves_no_mark st data (Hc E)). cbn.
    destruct (run props sdk later st); reflexivity.
Qed.

(** C8. The custom key handler returns [true] (after calling
    [preventDefault]) for the key events that have the Ctrl modifier and
    whose key, lower-cased, is the backtick, and [false] (calling
    nothing) for every other key event; no other key lower-cases to the
    backtick. It leaves the component as it was. *)
Theorem key_hook_verdict event st :
  outcome (customKeyEventHandler event st)
  = Normal (ctrlKey event && (toLowerCase (key event) =? "`")%string) /\
  (outcome (customKeyEventHandler event st) = Normal true <->
   ctrlKey event = true /\ toLowerCase (key event) = "`") /\
  (outcome (customKeyEventHandler event st) = Normal false <->
   ~ (ctrlKey event = true /\ toLowerCase (key event) = "`")) /\
  (toLowerCase (key event) = "`" <-> key event = "`") /\
  trace (customKeyEventHandler event st)
  = (if ctrlKey event && (toLowerCase (key event) =? "`")%string
     then [event_preventDefault] else []) /\
  final (customKeyEventHandler event st) = st.
Proof.
  unfold customKeyEventHandler.
  destruct (ctrlKey event); cbn;
    [destruct (String.eqb_spec (toLowerCase (key event)) "`") as [E|E]|];
    cbn; (split; [reflexivity|]);
    (split; [split; [intros H; first [discriminate H | tauto]
                    | intros [H1 H2]; first [reflexivity | congruence]]|]);
    (split; [split; [intros H; first [discriminate H | intros [H1 H2]; congruence]
                    | intros H; first [reflexivity | exfalso; apply H; tauto]]|]);
    (split; [apply toLowerCase_backtick|]); split; reflexivity.
Qed.

(** *** After the teardown *)

Lemma cleanup_mounted rs s :
  wp (onCleanup_body props) (mounted rs s)
     (fun t st' o =>
        exists rs' s',
          st' = mounted rs' s' /\
          (o = Normal tt -> rs' = closing rs /\ In ws_close t)).
Proof.
  unfold onCleanup_body. wp_run; eexists; eexists;
    (split; [reflexivity |
     intros E; first [discriminate E |
       split; [reflexivity |
               cbn [app In]; repeat first [left; reflexivity | right]]]]).
Qed.

(** C6 (amended). Tearing down an attached view closes its socket (when
    the teardown completes, [ws.close()] has been called and the socket
    is closing or closed), but the handlers carry no check of any kind:
    a connection event that arrives after the teardown is handled as
    before it. A message is written to the disposed terminal, an error is
    logged and passed to the host's [onConnectError], an open issues the
    size update, a close is logged. *)
Theorem teardown_leaves_handlers_live st :
  attached props sdk st ->
  (outcome (onCleanup_body props st) = Normal tt ->
   In ws_close (trace (onCleanup_body props st)) /\
   (ws (final (onCleanup_body props st)) = Some CLOSING \/
    ws (final (onCleanup_body props st)) = Some CLOSED)) /\
  exists s',
    term (final (onCleanup_body props st)) = Some s' /\
    forall data,
      trace (dispatch props (connection_message data)
               (final (onCleanup_body props st)))
      = [term_write data] /\
      trace (dispatch props connection_error (final (onCleanup_body props st)))
      = console_error "WebSocket error:"
          :: (if onConnectError props then [props_onConnectError] else []) /\
      trace (dispatch props connection_opened (final (onCleanup_body props st)))
      = [ console_log "WebSocket connected";
          pty_update (id (pty props)) (term_cols s') (term_rows s') ] /\
      trace (dispatch props connection_closed (final (onCleanup_body props st)))
      = [console_log "WebSocket disconnected"].
Proof.
  intros Ha. destruct (attached_mounted Ha) as (rs & s & ->).
  destruct (cleanup_mounted rs s) as (rs' & s' & -> & Hn).
  split.
  - intros E. destruct (Hn E) as [-> Hin]. split; [exact Hin|].
    destruct rs; cbn; auto.
  - exists s'. split; [reflexivity|]. intros data.
    split; [|split; [|split; reflexivity]].
    + change (wp (dispatch props (connection_message data)) (mounted rs' s')
                (fun t _ _ => t = [term_write data])).
      unfold dispatch, ws_message_handler. wp_run; reflexivity.
    + change (wp (dispatch props connection_error) (mounted rs' s')
                (fun t _ _ =>
                   t = console_error "WebSocket error:"
                         :: (if onConnectError props
                             then [props_onConnectError] else []))).
      unfold dispatch, ws_error_handler. wp_run; reflexivity.
Qed.

End Claims.

(** *** Concrete runs *)

(** C4 (counterexample). A session that remembers 132 columns and 40 rows
    but carries no snapshot is attached, the mount completes, and the
    component has made no [resize] call: the surface keeps the size it was
    created with. *)
Lemma sized_session_is_not_resized :
  rows session_sized_only = Some 40%Z /\
  cols session_sized_only = Some 132%Z /\
  outcome (onMount_body (P := quiet_grid)
             (host_props session_sized_only) demo_sdk init) = Normal tt /\
  filter is_resize
    (trace (onMount_body (P := quiet_grid)
              (host_props session_sized_only) demo_sdk init)) = [] /\
  ~ In (term_resize 132 40)
      (trace (onMount_body (P := quiet_grid)
                (host_props session_sized_only) demo_sdk init)).
Proof.
  repeat split; try reflexivity.
  vm_compute. intros H.
  repeat match goal with
         | H : _ \/ _ |- _ => destruct H as [H|H]; [discriminate H|]
         end.
  exact H.
Qed.

(** C6 (counterexample). A view is mounted and torn down while its socket
    is still connecting; the error and close events the socket then fires
    are handled all the same: after [term.dispose()] the component still
    logs the error and calls the host's [onConnectError]. Likewise a
    message that arrives after the teardown of an open view is written to
    the disposed terminal. *)
Lemma events_after_teardown_are_handled :
  trace (run (P := quiet_grid) (host_props session_with_snapshot) demo_sdk
           [Mount; Unmount; Deliver connection_error; Deliver connection_closed]
           init)
  = (trace (run (P := quiet_grid) (host_props session_with_snapshot) demo_sdk
              [Mount] init)
     ++ [ serializeAddon_serialize; term_getViewportY;
          props_onCleanup session_with_snapshot; ws_close; term_dispose;
          console_error "WebSocket error:"; props_onConnectError;
          console_log "WebSocket disconnected" ])%list /\
  trace (run (P := quiet_grid) (host_props session_with_snapshot) demo_sdk
           [Mount; Deliver connection_opened; Unmount;
            Deliver (connection_message "late")] init)
  = (trace (run (P := quiet_grid) (host_props session_with_snapshot) demo_sdk
              [Mount; Deliver connection_opened] init)
     ++ [ serializeAddon_serialize; term_getViewportY;
          props_onCleanup session_with_snapshot; ws_close; term_dispose;
          term_write "late" ])%list.
Proof. split; vm_compute; reflexivity. Qed.

(** C7 (counterexample). Over a terminal that rejects the stored snapshot,
    the mount does not complete: it ends with the exception of
    [term.write], nothing is reported, and none of the input, resize, key
    or connection handlers is installed. *)
Lemma garbled_snapshot_aborts_mount :
  buffer session_garbled = Some "garbled" /\
  outcome (onMount_body (P := fussy_grid)
             (host_props session_garbled) demo_sdk init)
  = Abrupt (Thrown (term_write "garbled")) /\
  listeners (final (onMount_body (P := fussy_grid)
                      (host_props session_garbled) demo_sdk init))
  = [keyHook] /\
  filter is_report
    (trace (onMount_body (P := fussy_grid)
              (host_props session_garbled) demo_sdk init)) = [].
Proof. repeat split; vm_compute; reflexivity. Qed.


Lemma demo_is_attached :
  attached (P := quiet_grid) (host_props session_with_snapshot) demo_sdk
    demo_attached.
Proof. apply att_mount. reflexivity. Defined.

Lemma cleanup_captures_before_teardown_witness :
  attached (P := quiet_grid) (host_props session_with_snapshot) demo_sdk
    demo_attached /\
  exists s,
    term demo_attached = Some s /\
    trace (onCleanup_body (host_props session_with_snapshot) demo_attached)
    = [ serializeAddon_serialize; term_getViewportY;
        props_onCleanup (captured (host_props session_with_snapshot) s);
        ws_close; term_dispose ].
Proof.
  split; [exact demo_is_attached|].
  destruct (cleanup_captures_before_teardown demo_is_attached)
    as (s & Hs & _ & Hn & _).
  exists s. split; [exact Hs | apply Hn; reflexivity].
Defined.


Lemma restore_in_fixed_order_witness :
  buffer (pty (host_props session_with_snapshot)) = Some "hello" /\
  "hello" <> "" /\
  filter is_restore_op
    (trace (onMount_body (P := quiet_grid)
              (host_props session_with_snapshot) demo_sdk init))
  = [ term_resize 120 30; term_reset; term_write "hello";
      term_scrollToLine 5 ].
Proof.
  split; [reflexivity|]. split; [discriminate|].
  apply (restore_in_fixed_order (P := quiet_grid)
           (host_props session_with_snapshot) demo_sdk (b := "hello")).
  - reflexivity.
  - discriminate.
  - reflexivity.
Defined.

Lemma resize_needs_a_snapshot_witness :
  outcome (onMount_body (P := quiet_grid)
             (host_props session_sized_only) demo_sdk init) = Normal tt /\
  filter is_resize
    (trace (onMount_body (P := quiet_grid)
              (host_props session_sized_only) demo_sdk init)) = [].
Proof.
  split; [reflexivity|].
  apply (resize_needs_a_snapshot (P := quiet_grid)
           (host_props session_sized_only) demo_sdk).
  reflexivity.
Defined.

Lemma failed_restore_aborts_mount_witness :
  buffer (pty (host_props session_garbled)) = Some "garbled" /\
  "garbled" <> "" /\
  throws (Platform := fussy_grid) (term_write "garbled") = true /\
  forall l, l <> keyHook ->
    listening l (final (onMount_body (P := fussy_grid)
                          (host_props session_garbled) demo_sdk init)) = false.
Proof.
  split; [reflexivity|]. split; [discriminate|]. split; [reflexivity|].
  apply (failed_restore_aborts_mount (P := fussy_grid)
           (host_props session_garbled) demo_sdk (snapshot := "garbled")).
  - reflexivity.
  - discriminate.
  - reflexivity.
Defined.

Lemma open_reports_dimensions_once_witness :
  attached (P := quiet_grid) (host_props session_with_snapshot) demo_sdk
    demo_attached /\
  exists s,
    term demo_attached = Some s /\
    trace (dispatch (host_props session_with_snapshot) connection_opened
             demo_attached)
    = [ console_log "WebSocket connected";
        pty_update "pty_1" (term_cols s) (term_rows s) ].
Proof.
  split; [exact demo_is_attached|].
  destruct (open_reports_dimensions_once demo_is_attached)
    as (s & Hs & Ht & _).
  exists s. split; [exact Hs | exact Ht].
Defined.

Lemma teardown_leaves_handlers_live_witness :
  attached (P := quiet_grid) (host_props session_with_snapshot) demo_sdk
    demo_attached /\
  trace (dispatch (host_props session_with_snapshot)
           (connection_message "late")
           (final (onCleanup_body (host_props session_with_snapshot)
                     demo_attached)))
  = [term_write "late"].
Proof.
  split; [exact demo_is_attached|].
  destruct (teardown_leaves_handlers_live demo_is_attached)
    as (_ & s & _ & H).
  exact (proj1 (H "late")).
Defined.

End TerminalViewFacts.

(* ===================================================================== *)
(** ** More facts about the string primitives                             *)
(* ===================================================================== *)

Module JsStringMore.
Import JsString JsStringFacts.

Lemma string_app_nil_r s : s ++ "" = s.
Proof. induction s as [|c s IH]; simpl; [reflexivity | now rewrite IH]. Qed.

Lemma string_app_assoc a b c : (a ++ b) ++ c = a ++ (b ++ c).
Proof. induction a as [|x a IH]; simpl; [reflexivity | now rewrite IH]. Qed.

Lemma startsWith_refl s : startsWith s s = true.
Proof.
  induction s as [|c s IH]; simpl; [reflexivity|].
  now rewrite Ascii.eqb_refl, IH.
Qed.

Lemma startsWith_app p r : startsWith (p ++ r) p = true.
Proof.
  induction p as [|a p IH]; simpl; [reflexivity|].
  now rewrite Ascii.eqb_refl, IH.
Qed.

Lemma slice_app p r : slice (String.length p) (p ++ r) = r.
Proof. induction p as [|a p IH]; simpl; [reflexivity | exact IH]. Qed.

(** A string that starts with [p] is [p] followed by its slice. *)
Lemma startsWith_split s p :
  startsWith s p = true -> s = p ++ slice (String.length p) s.
Proof.
  revert s. induction p as [|a p IH]; intros s H; simpl in *; [reflexivity|].
  destruct s as [|b s]; [discriminate|].
  apply andb_prop in H. destruct H as [Hab Hs].
  apply Ascii.eqb_eq in Hab. subst b. simpl. f_equal. now apply IH.
Qed.

Lemma string_length_app a b : String.length (a ++ b) = String.length a + String.length b.
Proof. induction a as [|c a IH]; simpl; [reflexivity | now rewrite IH]. Qed.

Lemma startsWith_length s p :
  startsWith s p = true -> String.length p <= String.length s.
Proof.
  intros H. pose proof (startsWith_split s p H) as E.
  rewrite E, string_length_app. lia.
Qed.

Lemma slice_length n s : String.length (slice n s) = String.length s - n.
Proof.
  revert s. induction n as [|n IH]; intros s; simpl; [lia|].
  destruct s as [|c s]; simpl; [reflexivity | apply IH].
Qed.

End JsStringMore.

(* ===================================================================== *)
(** ** Facts about the history beyond [addToHistory]'s postcondition      *)
(* ===================================================================== *)

Module ShellSuggestFacts.
Import JsString JsStringFacts JsStringMore ShellHistory ShellHistoryFacts ShellSuggest.

Lemma split_lines_one_line s : one_line s -> split_lines s = [s].
Proof.
  induction s as [|c s IH]; intros H; simpl; [reflexivity|].
  destruct (Ascii.eqb_spec c LF) as [->|Hne].
  - exfalso. apply H. now left.
  - rewrite IH; [reflexivity|]. intros Hin. apply H. now right.
Qed.

Lemma split_lines_app s r :
  one_line s -> split_lines (s ++ String LF r) = s :: split_lines r.
Proof.
  induction s as [|c s IH]; intros H; simpl.
  - reflexivity.
  - destruct (Ascii.eqb_spec c LF) as [->|Hne].
    + exfalso. apply H. now left.
    + rewrite IH; [reflexivity|]. intros Hin. apply H. now right.
Qed.

Lemma split_join h :
  h <> [] -> Forall one_line h -> split_lines (join_lines h) = h.
Proof.
  induction h as [|x h IH]; intros Hne Hall; [congruence|].
  inversion Hall as [|? ? Hx Hh]; subst.
  destruct h as [|y h].
  - simpl. now apply split_lines_one_line.
  - unfold join_lines in *. cbn [String.concat]. unfold nl at 1.
    cbn [String.append].
    change (x ++ String LF (String.concat nl (y :: h)))
      with (x ++ String LF (String.concat nl (y :: h))).
    rewrite split_lines_app by assumption. f_equal. apply IH; [discriminate | assumption].
Qed.

Lemma one_line_nonempty_filter h :
  nonempty h -> filter truthy h = h.
Proof.
  induction 1 as [|x h Hx _ IH]; simpl; [reflexivity|].
  apply truthy_true in Hx. now rewrite Hx, IH.
Qed.

Lemma loadHistory_disk st : disk (snd (loadHistory st)) = disk st.
Proof.
  unfold loadHistory.
  destruct (historyCache st); [reflexivity|].
  destruct (file (disk st)); [destruct (read_throws (disk st))|]; reflexivity.
Qed.

Lemma loadHistory_cache st :
  historyCache (snd (loadHistory st)) = Some (fst (loadHistory st)).
Proof.
  unfold loadHistory.
  destruct (historyCache st) eqn:E; [exact E|].
  destruct (file (disk st)); [destruct (read_throws (disk st))|]; reflexivity.
Qed.

(** X1. The history file is read at most once: loading never writes the
    disk, and once the history has been loaded, a later load returns the
    same array whatever the file has become in between. *)
Theorem loadHistory_reads_once st d :
  disk (snd (loadHistory st)) = disk st /\
  loadHistory (snd (loadHistory st)) = loadHistory st /\
  fst (loadHistory {| historyCache := historyCache (snd (loadHistory st));
                      disk := d |})
  = fst (loadHistory st).
Proof.
  split; [apply loadHistory_disk|].
  unfold loadHistory.
  destruct (historyCache st) eqn:E; simpl; [rewrite E; auto|].
  destruct (file (disk st)); [destruct (read_throws (disk st))|]; simpl; auto.
Qed.

Lemma split_lines_are_lines s : Forall one_line (split_lines s).
Proof.
  induction s as [|c s IH]; cbn [split_lines].
  - constructor; [|constructor]. intros [].
  - destruct (Ascii.eqb_spec c LF) as [->|Hne].
    + constructor; [intros [] | exact IH].
    + destruct (split_lines s) as [|h t].
      * constructor; [|constructor]. intros [H|[]]. now apply Hne.
      * inversion IH as [|? ? Hh Ht]; subst. constructor; [|exact Ht].
        intros [H|H]; [now apply Hne | now apply Hh].
Qed.

(** X2. What a first load gives: when the file is missing, or reading it
    raises, the history is empty and nothing is raised; otherwise it is
    the lines of the file in their order, the empty ones left out, so that
    no entry is empty and no entry holds a line feed. *)
Theorem first_load_gives_lines st :
  historyCache st = None ->
  (file (disk st) = None \/ read_throws (disk st) = true ->
   fst (loadHistory st) = []) /\
  (forall content,
     file (disk st) = Some content -> read_throws (disk st) = false ->
     fst (loadHistory st) = filter truthy (split_lines content)) /\
  Forall (fun e => e <> "" /\ one_line e) (fst (loadHistory st)).
Proof.
  intros Hc. unfold loadHistory. rewrite Hc.
  destruct (file (disk st)) as [content|];
    [destruct (read_throws (disk st))|]; cbn [fst].
  - repeat split; auto; discriminate.
  - split; [intros [H|H]; discriminate H|].
    split; [intros c [= <-] _; reflexivity|].
    apply Forall_forall. intros e He. apply filter_In in He.
    destruct He as [He Ht]. split; [now apply truthy_true|].
    pose proof (split_lines_are_lines content) as Hall.
    rewrite Forall_forall in Hall. now apply Hall.
  - repeat split; auto; discriminate.
Qed.

Lemma first_load_gives_lines_witness :
  historyCache twice_start = None /\
  fst (loadHistory twice_start) = ["ls"; "ls"].
Proof.
  split; [reflexivity|].
  destruct (@first_load_gives_lines twice_start eq_refl) as (_ & H & _).
  apply (H ("ls" ++ nl ++ "ls")); reflexivity.
Defined.

(** The list [addToHistory] leaves in the cache. *)
Lemma next_history_shape command st :
  exists k,
    truncate (trim command ::
              match indexOf (trim command) (history_of st) with
              | Some i => splice1 i (history_of st)
              | None => history_of st
              end)
    = trim command ::
      firstn k match indexOf (trim command) (history_of st) with
               | Some i => splice1 i (history_of st)
               | None => history_of st
               end.
Proof. apply truncate_cons. Qed.

Lemma addToHistory_disk command st :
  trim command <> "" ->
  forall h, historyCache (addToHistory command st) = Some h ->
  disk (addToHistory command st)
  = if write_throws (disk st) then disk st
    else {| file := Some (join_lines h);
            read_throws := read_throws (disk st);
            write_throws := write_throws (disk st) |}.
Proof.
  intros Hne h. unfold addToHistory.
  apply truthy_true in Hne. rewrite Hne. simpl.
  pose proof (loadHistory_disk st) as Hd.
  destruct (loadHistory st) as [h0 st1]. simpl in Hd.
  rewrite try_write_cache. simpl. intros [= <-].
  unfold try_write. simpl. rewrite Hd.
  destruct (write_throws (disk st)); [exact Hd | reflexivity].
Qed.



Lemma firstn_one_line k (h : list string) :
  Forall one_line h -> Forall one_line (firstn k h).
Proof.
  intros H. rewrite <- (firstn_skipn k h) in H.
  apply Forall_app in H. tauto.
Qed.

Lemma splice1_one_line i (h : list string) :
  Forall one_line h -> Forall one_line (splice1 i h).
Proof.
  intros H. unfold splice1. apply Forall_app. split.
  - now apply firstn_one_line.
  - rewrite <- (firstn_skipn (S i) h) in H. apply Forall_app in H. tauto.
Qed.

(** X4. The file round trip: when no entry holds a line feed, a fresh
    process that loads the file [addToHistory] wrote gets exactly the
    history the writer had in memory. *)
Theorem written_history_loads_back command st :
  possible st ->
  write_throws (disk st) = false ->
  read_throws (disk st) = false ->
  trim command <> "" ->
  one_line (trim command) ->
  Forall one_line (history_of st) ->
  historyCache (addToHistory command st)
  = Some (fst (loadHistory {| historyCache := None;
                              disk := disk (addToHistory command st) |})).
Proof.
  intros Hp Hw Hr Hne Hone Hall.
  pose proof (possible_nonempty (reach_add command Hp)) as Hinv.
  unfold cache_nonempty_entries in Hinv.
  pose proof (@addToHistory_disk command st Hne _ (addToHistory_cache command st Hne)) as Hd.
  rewrite Hw in Hd.
  rewrite (addToHistory_cache command st Hne) in *.
  rewrite Hd. unfold loadHistory. simpl. rewrite Hr. simpl.
  destruct (next_history_shape command st) as [k Hk].
  rewrite Hk in *. f_equal.
  rewrite split_join.
  - symmetry. now apply one_line_nonempty_filter.
  - discriminate.
  - constructor; [exact Hone|]. apply firstn_one_line.
    destruct (indexOf (trim command) (history_of st));
      [now apply splice1_one_line | exact Hall].
Qed.

Lemma written_history_loads_back_witness :
  possible blank_start /\
  historyCache (addToHistory "ls -la" blank_start)
  = Some (fst (loadHistory {| historyCache := None;
                              disk := disk (addToHistory "ls -la" blank_start) |})).
Proof.
  split; [apply reach_start|].
  apply (@written_history_loads_back "ls -la" blank_start).
  - apply reach_start.
  - reflexivity.
  - reflexivity.
  - discriminate.
  - vm_compute. intros H.
    repeat match goal with
           | H : _ \/ _ |- _ => destruct H as [H|H]; [discriminate H|]
           end.
    exact H.
  - constructor.
Defined.

Lemma truncate_fixed h : length h <= MAX_HISTORY -> truncate h = h.
Proof.
  intros H. unfold truncate.
  destruct (Nat.ltb_spec MAX_HISTORY (length h)); [lia | reflexivity].
Qed.

Lemma indexOf_head x l : indexOf x (x :: l) = Some 0.
Proof. simpl. now rewrite String.eqb_refl. Qed.

Lemma addToHistory_head command l d :
  trim command <> "" ->
  length (trim command :: l) <= MAX_HISTORY ->
  addToHistory command {| historyCache := Some (trim command :: l); disk := d |}
  = try_write (join_lines (trim command :: l))
      {| historyCache := Some (trim command :: l); disk := d |}.
Proof.
  intros Hne Hlen. unfold addToHistory.
  apply truthy_true in Hne. rewrite Hne.
  cbn [negb loadHistory historyCache]. rewrite indexOf_head.
  unfold splice1. cbn [firstn skipn app].
  rewrite (@truncate_fixed _ Hlen). reflexivity.
Qed.

(** X5. Entering the same command twice in a row is the same as entering it
    once: the second call leaves the cache and the disk as the first one
    left them. *)
Theorem addToHistory_twice command st :
  addToHistory command (addToHistory command st) = addToHistory command st.
Proof.
  destruct (string_dec (trim command) "") as [E|Hne].
  - now rewrite !(addToHistory_blank command _ E).
  - pose proof (addToHistory_cache command st Hne) as Hc.
    pose proof (@addToHistory_disk command st Hne _ Hc) as Hd.
    pose proof (truncate_length
                  (trim command ::
                   match indexOf (trim command) (history_of st) with
                   | Some i => splice1 i (history_of st)
                   | None => history_of st
                   end)) as Hlen.
    destruct (next_history_shape command st) as [k Hk].
    rewrite Hk in Hc, Hd, Hlen.
    destruct (addToHistory command st) as [c1 d1]. cbn [historyCache disk] in Hc, Hd.
    subst c1. rewrite (@addToHistory_head command _ d1 Hne Hlen).
    unfold try_write. cbn [disk historyCache].
    destruct (write_throws d1) eqn:Ew; [reflexivity|].
    f_equal. destruct (write_throws (disk st)) eqn:Ew0.
    + subst d1. rewrite Ew in Ew0. discriminate.
    + subst d1. reflexivity.
Qed.

Lemma splice1_is_remove x l i :
  occurrences l x <= 1 ->
  indexOf x l = Some i ->
  splice1 i l = remove string_dec x l.
Proof.
  revert i. induction l as [|y l IH]; simpl; intros i Hocc; [discriminate|].
  destruct (String.eqb_spec y x) as [->|Hne].
  - intros [= <-]. unfold splice1. simpl.
    destruct (string_dec x x) as [_|N]; [|contradiction].
    destruct (string_dec x x) as [_|N] in Hocc; [|contradiction].
    symmetry. apply notin_remove. apply (count_occ_not_In string_dec). lia.
  - destruct (indexOf x l) as [j|] eqn:E; [|discriminate].
    intros [= <-].
    destruct (string_dec y x) as [->|_] in Hocc; [contradiction|].
    destruct (string_dec x y) as [->|_]; [contradiction|].
    unfold splice1 in *. simpl. f_equal. now apply IH.
Qed.

Lemma NoDup_remove_all x (l : list string) :
  NoDup l -> NoDup (remove string_dec x l).
Proof.
  induction 1 as [|y l Hy _ IH]; simpl; [constructor|].
  destruct (string_dec x y); [exact IH|].
  constructor; [|exact IH]. intros Hin. apply in_remove in Hin. tauto.
Qed.

Lemma NoDup_firstn k (l : list string) : NoDup l -> NoDup (firstn k l).
Proof.
  intros H. rewrite <- (firstn_skipn k l) in H.
  now apply NoDup_app_remove_r in H.
Qed.

(** X6. Moving to the front: when the command is in the history at most
    once, the new history is the command followed by the old entries
    without it, in their old order, cut to 1000; and a history without
    duplicates stays without duplicates. *)
Theorem addToHistory_moves_to_front command st :
  trim command <> "" ->
  occurrences (history_of st) (trim command) <= 1 ->
  historyCache (addToHistory command st)
  = Some (truncate (trim command
                    :: remove string_dec (trim command) (history_of st))) /\
  (NoDup (history_of st) ->
   NoDup (truncate (trim command
                    :: remove string_dec (trim command) (history_of st)))).
Proof.
  intros Hne Hocc. split.
  - rewrite (addToHistory_cache command st Hne). do 3 f_equal.
    destruct (indexOf (trim command) (history_of st)) as [i|] eqn:E.
    + now apply splice1_is_remove.
    + symmetry. apply notin_remove. apply (count_occ_not_In string_dec).
      now apply indexOf_None.
  - intros Hnd.
    destruct (truncate_cons (trim command)
                (remove string_dec (trim command) (history_of st))) as [k ->].
    constructor.
    + intros Hin.
      assert (Hin' : In (trim command)
                       (remove string_dec (trim command) (history_of st))).
      { rewrite <- (firstn_skipn k). apply in_or_app. now left. }
      apply in_remove in Hin'. tauto.
    + apply NoDup_firstn. now apply NoDup_remove_all.
Qed.

Lemma addToHistory_moves_to_front_witness :
  trim "pwd" <> "" /\
  occurrences (history_of twice_start) "pwd" <= 1 /\
  historyCache (addToHistory "pwd" twice_start) = Some ["pwd"; "ls"; "ls"].
Proof.
  split; [discriminate|]. split; [vm_compute; lia|].
  apply (@addToHistory_moves_to_front "pwd" twice_start).
  - discriminate.
  - vm_compute. lia.
Defined.

Lemma indexOf_found x l i : indexOf x l = Some i -> In x l.
Proof.
  revert i. induction l as [|y l IH]; simpl; intros i; [discriminate|].
  destruct (String.eqb_spec y x) as [->|Hne]; [now left|].
  destruct (indexOf x l) as [j|]; [|discriminate].
  intros _. right. now apply (IH j).
Qed.

(** X7. The bound evicts the oldest entry: adding a command that is not in
    a history of 1000 entries puts it in front and drops the last entry,
    and nothing else. *)
Theorem addToHistory_evicts_oldest command st :
  trim command <> "" ->
  length (history_of st) = MAX_HISTORY ->
  ~ In (trim command) (history_of st) ->
  historyCache (addToHistory command st)
  = Some (trim command :: removelast (history_of st)).
Proof.
  intros Hne Hlen Hnot.
  rewrite (addToHistory_cache command st Hne).
  assert (E : indexOf (trim command) (history_of st) = None).
  { destruct (indexOf (trim command) (history_of st)) as [i|] eqn:E; [|reflexivity].
    exfalso. apply Hnot. now apply (indexOf_found _ _ E). }
  rewrite E. unfold truncate. cbn [length]. rewrite Hlen.
  replace (MAX_HISTORY <? S MAX_HISTORY)%nat with true
    by (symmetry; apply Nat.ltb_lt; lia).
  rewrite removelast_firstn_len, Hlen.
  change MAX_HISTORY with (S (pred MAX_HISTORY)) at 1.
  rewrite firstn_cons. reflexivity.
Qed.

Lemma addToHistory_evicts_oldest_witness :
  trim "ls" <> "" /\
  length (history_of full_state) = MAX_HISTORY /\
  ~ In (trim "ls") (history_of full_state) /\
  historyCache (addToHistory "ls" full_state)
  = Some (trim "ls" :: removelast (history_of full_state)).
Proof.
  assert (Hnot : ~ In (trim "ls") (history_of full_state)).
  { intros H. apply repeat_spec in H. discriminate H. }
  split; [discriminate|]. split; [apply repeat_length|]. split; [exact Hnot|].
  apply (@addToHistory_evicts_oldest "ls" full_state).
  - discriminate.
  - apply repeat_length.
  - exact Hnot.
Defined.

(** *** Suggestions *)

Lemma qualifies_iff input c :
  startsWith (toLowerCase c) (toLowerCase input) && negb (c =? input) = false <->
  (offers input c = false \/ c = input).
Proof.
  unfold offers. destruct (startsWith (toLowerCase c) (toLowerCase input));
    destruct (String.eqb_spec c input); simpl; split; auto.
  intros [H|H]; congruence.
Qed.

Lemma suggest_in_first input history suffix :
  suggest_in input (toLowerCase input) history = Some suffix <->
  exists before cmd after,
    history = (before ++ cmd :: after)%list /\
    (forall c, In c before -> offers input c = false \/ c = input) /\
    offers input cmd = true /\ cmd <> input /\
    suffix = slice (String.length input) cmd.
Proof.
  induction history as [|c h IH]; cbn [suggest_in].
  - split; [discriminate|]. intros (b & cmd & a & E & _).
    destruct b; discriminate.
  - destruct (startsWith (toLowerCase c) (toLowerCase input)
              && negb (c =? input)) eqn:Hq.
    + split.
      * intros [= <-]. exists [], c, h.
        apply andb_prop in Hq. destruct Hq as [H1 H2].
        apply negb_true_iff in H2. apply String.eqb_neq in H2.
        repeat split; auto. intros x [].
      * intros (b & cmd & a & E & Hb & H1 & H2 & H3).
        destruct b as [|x b]; cbn [app] in E; injection E as E1 E2; subst.
        -- reflexivity.
        -- exfalso. apply (qualifies_iff input x) in Hb; [congruence | now left].
    + rewrite IH. split.
      * intros (b & cmd & a & -> & Hb & H1 & H2 & H3).
        exists (c :: b), cmd, a. repeat split; auto.
        intros x [<-|Hx]; [now apply qualifies_iff | now apply Hb].
      * intros (b & cmd & a & E & Hb & H1 & H2 & H3).
        destruct b as [|x b]; cbn [app] in E; injection E as E1 E2; subst.
        -- exfalso. apply qualifies_iff in Hq. destruct Hq; congruence.
        -- exists b, cmd, a. repeat split; auto. intros y Hy. apply Hb. now right.
Qed.

Lemma getSuggestion_loaded input st :
  trim input <> "" ->
  getSuggestion input st
  = (suggest_in input (toLowerCase input) (history_of st), snd (loadHistory st)).
Proof.
  intros Hne. unfold getSuggestion, history_of.
  apply truthy_true in Hne. rewrite Hne. simpl.
  now destruct (loadHistory st).
Qed.

(** X8. What [getSuggestion] suggests: for a blank input nothing, without
    loading the history; otherwise what follows the input's length in the
    most recent entry that passes the test of the loop (the entry,
    lower-cased, starts with the input, lower-cased) and is not the input
    itself. When that entry starts with the input as it was typed, the
    input followed by the suggestion is the entry. *)
Theorem getSuggestion_most_recent input st :
  (trim input = "" -> getSuggestion input st = (None, st)) /\
  (trim input <> "" ->
   forall suffix,
     fst (getSuggestion input st) = Some suffix <->
     exists before cmd after,
       history_of st = (before ++ cmd :: after)%list /\
       (forall c, In c before -> offers input c = false \/ c = input) /\
       offers input cmd = true /\ cmd <> input /\
       suffix = slice (String.length input) cmd /\
       (startsWith cmd input = true -> input ++ suffix = cmd)).
Proof.
  split.
  - intros E. unfold getSuggestion. apply truthy_false in E. now rewrite E.
  - intros Hne suffix. rewrite (@getSuggestion_loaded input st Hne). cbn [fst].
    rewrite suggest_in_first. split.
    + intros (b & cmd & a & E & Hb & H1 & H2 & ->).
      exists b, cmd, a. repeat split; auto.
      intros Hs. symmetry. now apply startsWith_split.
    + intros (b & cmd & a & E & Hb & H1 & H2 & H3 & _).
      exists b, cmd, a. auto.
Qed.

(** X9. [getSuggestion] answers [null] for a non-blank input exactly when
    every entry of the history either does not start with the input, case
    ignored, or is the input itself. *)
Theorem getSuggestion_none input st :
  trim input <> "" ->
  (fst (getSuggestion input st) = None <->
   forall c, In c (history_of st) -> offers input c = false \/ c = input).
Proof.
  intros Hne. rewrite (@getSuggestion_loaded input st Hne). cbn [fst].
  induction (history_of st) as [|c h IH]; cbn [suggest_in].
  - split; [intros _ c [] | reflexivity].
  - destruct (startsWith (toLowerCase c) (toLowerCase input)
              && negb (c =? input)) eqn:Hq.
    + split; [discriminate|]. intros H.
      apply (qualifies_iff input c) in H; [congruence | now left].
    + rewrite IH. split.
      * intros H x [<-|Hx]; [now apply qualifies_iff | now apply H].
      * intros H x Hx. apply H. now right.
Qed.

Lemma getSuggestion_none_witness :
  trim "git" <> "" /\
  (fst (getSuggestion "git" twice_start) = None <->
   forall c, In c (history_of twice_start) -> offers "git" c = false \/ c = "git").
Proof.
  split; [discriminate|].
  apply (@getSuggestion_none "git" twice_start). discriminate.
Defined.

(** X10. What was entered is suggested: right after [addToHistory command],
    whatever the history held, an input that is not blank, that the
    trimmed command passes the test of the loop for (the command,
    lower-cased, starts with the input, lower-cased) and that is not the
    trimmed command itself gets what follows its length in that command as
    its suggestion: the command is now the first entry looked at. When the
    command starts with the input as it was typed, the input followed by
    the suggestion is the trimmed command. *)
Theorem added_command_is_suggested command input st :
  trim command <> "" ->
  trim input <> "" ->
  offers input (trim command) = true ->
  input <> trim command ->
  fst (getSuggestion input (addToHistory command st))
  = Some (slice (String.length input) (trim command)) /\
  (startsWith (trim command) input = true ->
   input ++ slice (String.length input) (trim command) = trim command).
Proof.
  intros Hc Hi Ho Hne.
  split; [|intros Hs; symmetry; now apply startsWith_split].
  rewrite (@getSuggestion_loaded input _ Hi). cbn [fst].
  unfold history_of, loadHistory.
  rewrite (addToHistory_cache command st Hc). cbn [fst].
  destruct (next_history_shape command st) as [k ->]. cbn [suggest_in].
  unfold offers in Ho. rewrite Ho.
  destruct (String.eqb_spec (trim command) input) as [E|_]; [congruence|].
  reflexivity.
Qed.

Lemma added_command_is_suggested_witness :
  trim " git status " <> "" /\ trim "GIT s" <> "" /\
  offers "GIT s" (trim " git status ") = true /\
  "GIT s" <> trim " git status " /\
  fst (getSuggestion "GIT s" (addToHistory " git status " blank_start))
  = Some "tatus".
Proof.
  split; [discriminate|]. split; [discriminate|]. split; [reflexivity|].
  split; [discriminate|].
  apply (@added_command_is_suggested " git status " "GIT s" blank_start);
    first [discriminate | reflexivity].
Defined.

(** *** Matching commands *)

Lemma matching_loop_firstn lp limit history matches :
  matches = [] \/ (Z.of_nat (length matches) < limit)%Z ->
  matching_loop lp limit history matches
  = (matches
     ++ firstn (Z.to_nat (Z.max 1 limit) - length matches)
          (filter (fun c => startsWith (toLowerCase c) lp) history))%list.
Proof.
  revert matches. induction history as [|c h IH]; intros matches Hm; simpl.
  - now rewrite firstn_nil, app_nil_r.
  - destruct (startsWith (toLowerCase c) lp).
    + rewrite length_app. cbn [length].
      assert (Hpos : Z.to_nat (Z.max 1 limit) - length matches
                     = S (Z.to_nat (Z.max 1 limit) - length matches - 1)).
      { destruct Hm as [->|Hm]; cbn [length]; lia. }
      rewrite Hpos. cbn [firstn].
      destruct (Z.leb_spec limit (Z.of_nat (length matches + 1))) as [Hle|Hgt].
      * replace (Z.to_nat (Z.max 1 limit) - length matches - 1) with 0
          by (destruct Hm as [->|Hm]; cbn [length] in *; lia).
        reflexivity.
      * rewrite IH by (right; rewrite length_app; cbn [length]; lia).
        rewrite length_app. cbn [length]. rewrite <- app_assoc. cbn [app].
        do 3 f_equal. lia.
    + now apply IH.
Qed.

(** X11. What [getMatchingCommands] returns: for a blank prefix nothing,
    without loading the history; otherwise the most recent entries that
    start with the prefix, case ignored, in history order, as many as the
    limit says (10 when omitted), and at least one if there is one: the
    limit is tested only after an entry has been taken, so a limit of zero
    or less still returns the most recent match. *)
Theorem getMatchingCommands_most_recent prefix limit st :
  (trim prefix = "" -> getMatchingCommands prefix limit st = ([], st)) /\
  (trim prefix <> "" ->
   fst (getMatchingCommands prefix limit st)
   = firstn (Z.to_nat (Z.max 1 (match limit with Some n => n | None => 10%Z end)))
       (filter (offers prefix) (history_of st))).
Proof.
  split.
  - intros E. unfold getMatchingCommands. apply truthy_false in E. now rewrite E.
  - intros Hne. unfold getMatchingCommands, history_of.
    apply truthy_true in Hne. rewrite Hne. simpl.
    destruct (loadHistory st) as [h st1]. cbn [fst].
    rewrite matching_loop_firstn by now left.
    cbn [app length]. now rewrite Nat.sub_0_r.
Qed.

End ShellSuggestFacts.

(* ===================================================================== *)
(** ** Facts about the completion of a path                               *)
(* ===================================================================== *)

Module PathCompletionFacts.
Import JsString JsStringFacts JsStringMore PathCompletion.

Lemma startsWith_trans a b c :
  startsWith a b = true -> startsWith b c = true -> startsWith a c = true.
Proof.
  intros Hab Hbc. rewrite (startsWith_split a b Hab).
  rewrite (startsWith_split b c Hbc) at 1.
  rewrite string_app_assoc. apply startsWith_app.
Qed.

Lemma shared_start common name : startsWith common (shared common name) = true.
Proof.
  revert name. induction common as [|a r IH]; intros [|b r']; try reflexivity.
  simpl. destruct (Ascii.eqb (lower_char a) (lower_char b)); [|reflexivity].
  simpl. now rewrite Ascii.eqb_refl, IH.
Qed.

Lemma common_start others first :
  startsWith first
    (fold_left (fun c m => shared c (name m)) others first) = true.
Proof.
  revert first. induction others as [|m others IH]; intros first; simpl.
  - apply startsWith_refl.
  - apply startsWith_trans with (b := shared first (name m)).
    + apply shared_start.
    + apply IH.
Qed.

Lemma shared_refl s : shared s s = s.
Proof.
  induction s as [|a r IH]; [reflexivity|].
  simpl. now rewrite Ascii.eqb_refl, IH.
Qed.

(** Running the inner loop again over the same name stops where it did. *)
Lemma shared_stable common name :
  shared (shared common name) name = shared common name.
Proof.
  revert name. induction common as [|a r IH]; intros [|b r']; try reflexivity.
  simpl. destruct (Ascii.eqb (lower_char a) (lower_char b)) eqn:E;
    [|reflexivity].
  simpl. now rewrite E, IH.
Qed.

(** A start of a string that a name shares in full is shared in full. *)
Lemma shared_of_start common start name :
  startsWith common start = true ->
  shared common name = common ->
  shared start name = start.
Proof.
  revert common name.
  induction start as [|a r IH]; intros common name Hs Hc; [reflexivity|].
  destruct common as [|b common]; [discriminate|].
  simpl in Hs. apply andb_prop in Hs. destruct Hs as [Hab Hs].
  apply Ascii.eqb_eq in Hab. subst b.
  destruct name as [|x name]; [discriminate|].
  simpl in Hc |- *.
  destruct (Ascii.eqb (lower_char a) (lower_char x)); [|discriminate].
  injection Hc as Hc. f_equal. now apply (IH common name).
Qed.

(** The inner loop keeps every start that the name shares in full. *)
Lemma shared_keeps_start common start name :
  startsWith common start = true ->
  shared start name = start ->
  startsWith (shared common name) start = true.
Proof.
  revert common name.
  induction start as [|a r IH]; intros common name Hs Hc; [reflexivity|].
  destruct common as [|b common]; [discriminate|].
  simpl in Hs. apply andb_prop in Hs. destruct Hs as [Hab Hs].
  apply Ascii.eqb_eq in Hab. subst b.
  destruct name as [|x name]; [discriminate|].
  simpl in Hc |- *.
  destruct (Ascii.eqb (lower_char a) (lower_char x)); [|discriminate].
  injection Hc as Hc. simpl. rewrite Ascii.eqb_refl. simpl.
  now apply IH.
Qed.

(** What the outer loop leaves is shared in full by every name it went
    through, and by the name it started from. *)
Lemma common_shared others first m :
  In m others ->
  shared (fold_left (fun c m => shared c (name m)) others first) (name m)
  = fold_left (fun c m => shared c (name m)) others first.
Proof.
  revert first. induction others as [|x others IH]; intros first Hin;
    [destruct Hin|].
  simpl. destruct Hin as [->|Hin]; [|now apply IH].
  apply shared_of_start with (common := shared first (name m)).
  - apply common_start.
  - apply shared_stable.
Qed.

Lemma common_shared_first others first :
  shared (fold_left (fun c m => shared c (name m)) others first) first
  = fold_left (fun c m => shared c (name m)) others first.
Proof.
  apply shared_of_start with (common := first).
  - apply common_start.
  - apply shared_refl.
Qed.

(** And it is the longest such start. *)
Lemma common_longest others first start :
  startsWith first start = true ->
  (forall m, In m others -> shared start (name m) = start) ->
  startsWith (fold_left (fun c m => shared c (name m)) others first) start
  = true.
Proof.
  revert first. induction others as [|x others IH]; intros first Hs Hall.
  - exact Hs.
  - simpl. apply IH.
    + apply shared_keeps_start; [exact Hs | apply Hall; now left].
    + intros m Hm. apply Hall. now right.
Qed.

(** What [complete_among] returns is cut out of [common], the longest start
    of the first match's name that every match shares in full, code unit
    by code unit with the case of each ignored: the whole name, followed by
    a slash or a space, for a single match; a longer start than what was
    typed, followed by nothing, for several. *)
Lemma complete_among_sound prefix first rest completion :
  complete_among prefix (first :: rest) = Some completion ->
  exists common tail,
    startsWith (name first) common = true /\
    (forall m, In m (first :: rest) -> shared common (name m) = common) /\
    (forall start,
       startsWith (name first) start = true ->
       (forall m, In m (first :: rest) -> shared start (name m) = start) ->
       startsWith common start = true) /\
    completion = slice (String.length prefix) common ++ tail /\
    (rest = [] ->
     common = name first /\ tail = if isDirectory first then "/" else " ") /\
    (rest <> [] ->
     tail = "" /\ String.length prefix < String.length common).
Proof.
  destruct rest as [|second others]; cbn [complete_among].
  - intros [= <-].
    exists (name first), (if isDirectory first then "/" else " ").
    split; [apply startsWith_refl|].
    split; [intros m [<-|[]]; apply shared_refl|].
    split; [intros start Hs _; exact Hs|].
    split; [reflexivity|].
    split; [intros _; split; reflexivity | intros H; now contradiction H].
  - set (common := fold_left (fun c m => shared c (name m)) (second :: others)
                     (name first)).
    destruct (Nat.ltb_spec (String.length prefix) (String.length common))
      as [Hlt|Hge]; [|discriminate].
    intros [= <-].
    exists common, "".
    split; [apply common_start|].
    split.
    { intros m [<-|Hin]; [apply common_shared_first | now apply common_shared]. }
    split.
    { intros start Hs Hall. apply common_longest; [exact Hs|].
      intros m Hm. apply Hall. now right. }
    split; [now rewrite string_app_nil_r|].
    split; [discriminate|].
    intros _. split; [reflexivity | exact Hlt].
Qed.

Section WithNode.
Context {N : Node}.

(** [getPathCompletion] in terms of the values it computes on its way. *)
Lemma getPathCompletion_unfold input :
  getPathCompletion input
  = if negb (truthy (last_word input)) then None
    else if endsWith (last_word input) "/" then None
    else if negb (truthy (typed_name input)) then None
    else match listed input with
         | Entries entries =>
             complete_among (typed_name input)
               (filter (candidate (typed_name input)) entries)
         | _ => None
         end.
Proof.
  unfold getPathCompletion, typed_name, listed. cbv zeta.
  fold (last_word input).
  destruct (negb (truthy (last_word input))); [reflexivity|].
  destruct (endsWith (last_word input) "/"); [reflexivity|].
  destruct (negb (truthy (path_basename (expandTilde (last_word input)))));
    [reflexivity|].
  destruct (readdir _); reflexivity.
Qed.

(** X12. Whatever [getPathCompletion] offers is cut out of the names found
    in the directory. With [common] the longest start of the first
    matching entry's name that every matching entry shares, code unit by
    code unit with the case of each ignored, the offer is what follows the
    length of the typed name in [common], followed by a slash (a directory)
    or a space (a file) when one entry matches, [common] being then its
    whole name, and by nothing when several match, [common] being then
    longer than what was typed. An offer is never the empty string. *)
Theorem getPathCompletion_sound input completion :
  getPathCompletion input = Some completion ->
  completion <> "" /\
  exists entries first rest common tail,
    listed input = Entries entries /\
    filter (candidate (typed_name input)) entries = first :: rest /\
    startsWith (name first) common = true /\
    (forall m, In m (first :: rest) -> shared common (name m) = common) /\
    (forall start,
       startsWith (name first) start = true ->
       (forall m, In m (first :: rest) -> shared start (name m) = start) ->
       startsWith common start = true) /\
    completion = slice (String.length (typed_name input)) common ++ tail /\
    (rest = [] ->
     common = name first /\ tail = if isDirectory first then "/" else " ") /\
    (rest <> [] ->
     tail = "" /\ String.length (typed_name input) < String.length common).
Proof.
  rewrite getPathCompletion_unfold.
  destruct (negb (truthy (last_word input))); [discriminate|].
  destruct (endsWith (last_word input) "/"); [discriminate|].
  destruct (negb (truthy (typed_name input))); [discriminate|].
  destruct (listed input) as [| |entries]; try discriminate.
  destruct (filter (candidate (typed_name input)) entries)
    as [|first rest] eqn:Hf; [discriminate|].
  intros H.
  destruct (complete_among_sound _ _ _ H)
    as (common & tail & Hs & Hall & Hmax & E & Hone & Hmany).
  split.
  - subst completion. destruct rest as [|second others].
    + destruct (Hone eq_refl) as [_ ->].
      intros E. apply (f_equal String.length) in E.
      rewrite string_length_app in E.
      destruct (isDirectory first); simpl in E; lia.
    + destruct Hmany as [-> Hlt]; [discriminate|].
      intros E. apply (f_equal String.length) in E.
      rewrite string_length_app, slice_length in E. simpl in E. lia.
  - exists entries, first, rest, common, tail. repeat split; auto;
      first [ now apply Hone | now apply Hmany ].
Qed.

(** X13. A single match is completed to its whole name: when exactly one
    entry of the directory matches, the offer is what follows the length
    of the typed name in that entry's name, followed by a slash for a
    directory and a space for a file. When the name starts with what was
    typed, as it was typed, the typed name followed by that rest is the
    name. *)
Theorem getPathCompletion_single input entries m :
  last_word input <> "" ->
  endsWith (last_word input) "/" = false ->
  typed_name input <> "" ->
  listed input = Entries entries ->
  filter (candidate (typed_name input)) entries = [m] ->
  getPathCompletion input
  = Some (slice (String.length (typed_name input)) (name m)
          ++ (if isDirectory m then "/" else " ")) /\
  (startsWith (name m) (typed_name input) = true ->
   typed_name input ++ slice (String.length (typed_name input)) (name m)
   = name m).
Proof.
  intros Hw Hs Ht Hl Hf. rewrite getPathCompletion_unfold.
  apply truthy_true in Hw. apply truthy_true in Ht.
  rewrite Hw, Hs, Ht, Hl, Hf. cbn [negb complete_among].
  split; [reflexivity|].
  intros H. symmetry. now apply startsWith_split.
Qed.

Lemma split_spaces_nonempty g s : split_spaces_from g s <> [].
Proof.
  revert g. induction s as [|c s IH]; intros g; simpl; [discriminate|].
  destruct (is_whitespace c).
  - destruct g; [apply IH | discriminate].
  - specialize (IH false). destruct (split_spaces_from false s); [congruence | discriminate].
Qed.

(** A character that is not white space, put at the end of a string, goes
    to the end of its last word. *)
Lemma split_spaces_snoc g s c :
  is_whitespace c = false ->
  split_spaces_from g (s ++ String c "")
  = (removelast (split_spaces_from g s)
     ++ [(last (split_spaces_from g s) "" ++ String c "")%string])%list.
Proof.
  intros Hc. revert g. induction s as [|a r IH]; intros g.
  - simpl. rewrite Hc. reflexivity.
  - cbn [String.append split_spaces_from].
    destruct (is_whitespace a).
    + destruct g; [apply IH|].
      rewrite IH. pose proof (split_spaces_nonempty true r) as Hne.
      destruct (split_spaces_from true r) as [|h t]; [congruence|]. reflexivity.
    + rewrite IH. pose proof (split_spaces_nonempty false r) as Hne.
      destruct (split_spaces_from false r) as [|h [|x t]]; [congruence| |];
        reflexivity.
Qed.

Lemma last_word_slash pre :
  last (split_spaces (pre ++ "/")) "" = last (split_spaces pre) "" ++ "/".
Proof.
  unfold split_spaces. rewrite split_spaces_snoc by reflexivity.
  apply last_last.
Qed.

Lemma endsWith_slash s : endsWith (s ++ "/") "/" = true.
Proof.
  unfold endsWith. rewrite string_length_app. cbn [String.length].
  replace (String.length s + 1 - 1) with (String.length s) by lia.
  rewrite slice_app. apply andb_true_intro. split; [apply Nat.leb_le; lia | reflexivity].
Qed.

(** X14. When there is nothing to complete: a blank input, an input whose
    last word ends with a slash (the contents of a directory are never
    offered), and a directory that does not exist or cannot be read all
    give [null]; the exception of the read is caught, not raised. *)
Theorem getPathCompletion_nothing input :
  (trimEnd input = "" -> getPathCompletion input = None) /\
  (forall pre, trimEnd input = pre ++ "/" -> getPathCompletion input = None) /\
  (listed input = Missing -> getPathCompletion input = None) /\
  (listed input = Unreadable -> getPathCompletion input = None).
Proof.
  split; [|split; [|split]].
  - intros E. rewrite getPathCompletion_unfold. unfold last_word. now rewrite E.
  - intros pre E. rewrite getPathCompletion_unfold. unfold last_word.
    rewrite E, last_word_slash, endsWith_slash.
    now destruct (negb (truthy (last (split_spaces pre) "" ++ "/"))).
  - intros E. rewrite getPathCompletion_unfold, E.
    repeat match goal with |- context [if ?b then _ else _] => destruct b end;
      reflexivity.
  - intros E. rewrite getPathCompletion_unfold, E.
    repeat match goal with |- context [if ?b then _ else _] => destruct b end;
      reflexivity.
Qed.

End WithNode.

Lemma candidate_visible prefix entries :
  startsWith prefix "." = false ->
  filter (candidate prefix) (filter visible entries)
  = filter (candidate prefix) entries.
Proof.
  intros Hp. induction entries as [|e l IH]; [reflexivity|].
  cbn [filter]. unfold visible at 1, candidate at 2. rewrite Hp.
  destruct (startsWith (name e) ".") eqn:Hd; cbn [negb andb filter].
  - exact IH.
  - rewrite IH. unfold candidate at 1. now rewrite Hd.
Qed.

(** X15. Hidden entries are offered only for a dotted name: unless the name
    typed so far starts with a dot, the entries whose names start with a
    dot play no part, and the answer is the one the same directory would
    give without them. *)
Theorem getPathCompletion_skips_hidden (N : Node) input :
  startsWith (typed_name (N := N) input) "." = false ->
  getPathCompletion (N := hide_dotfiles N) input
  = getPathCompletion (N := N) input.
Proof.
  intros Hp. rewrite !getPathCompletion_unfold.
  change (typed_name (N := hide_dotfiles N) input) with (typed_name (N := N) input).
  destruct (negb (truthy (last_word input))); [reflexivity|].
  destruct (endsWith (last_word input) "/"); [reflexivity|].
  destruct (negb (truthy (typed_name input))); [reflexivity|].
  unfold listed, hide_dotfiles. cbn [readdir path_resolve path_dirname].
  change (@expandTilde (hide_dotfiles N)) with (@expandTilde N).
  destruct (readdir _); try reflexivity.
  now rewrite candidate_visible.
Qed.

Lemma getPathCompletion_sound_witness :
  getPathCompletion (N := demo_node) "cd sc" = Some "r" /\
  "r" <> "".
Proof.
  split; [reflexivity|].
  apply (@getPathCompletion_sound demo_node "cd sc" "r"). reflexivity.
Defined.

Lemma getPathCompletion_single_witness :
  last_word "cat REA" <> "" /\
  endsWith (last_word "cat REA") "/" = false /\
  typed_name (N := demo_node) "cat REA" <> "" /\
  listed (N := demo_node) "cat REA" = Entries demo_entries /\
  filter (candidate (typed_name (N := demo_node) "cat REA")) demo_entries
  = [ {| name := "README.md"; isDirectory := false |} ] /\
  getPathCompletion (N := demo_node) "cat REA" = Some "DME.md ".
Proof.
  split; [discriminate|]. split; [reflexivity|]. split; [discriminate|].
  split; [reflexivity|]. split; [reflexivity|].
  apply (@getPathCompletion_single demo_node "cat REA" demo_entries
           {| name := "README.md"; isDirectory := false |});
    first [discriminate | reflexivity].
Defined.

Lemma getPathCompletion_skips_hidden_witness :
  startsWith (typed_name (N := demo_node) "cd sr") "." = false /\
  getPathCompletion (N := hide_dotfiles demo_node) "cd sr"
  = getPathCompletion (N := demo_node) "cd sr".
Proof.
  split; [reflexivity|].
  apply (@getPathCompletion_skips_hidden demo_node "cd sr"). reflexivity.
Defined.

End PathCompletionFacts.

(* ===================================================================== *)
(** ** Facts about the life of a terminal view                            *)
(* ===================================================================== *)

Module TerminalLifeFacts.
Import JsString JsStringFacts TerminalView TerminalViewFacts.

Section Life.
Context {P : Platform}.
Variable props : TerminalProps.
Variable sdk : Sdk.

(** A run, one turn after the other. *)
Lemma run_cons s rest st :
  trace (run props sdk (s :: rest) st)
  = (trace (step props sdk s st)
     ++ trace (run props sdk rest (final (step props sdk s st))))%list /\
  final (run props sdk (s :: rest) st)
  = final (run props sdk rest (final (step props sdk s st))).
Proof. cbn [run]. unfold bind, step, turn. cbn. split; reflexivity. Qed.

Lemma step_deliver e st :
  trace (step props sdk (Deliver e) st) = trace (dispatch props e st) /\
  final (step props sdk (Deliver e) st) = final (dispatch props e st).
Proof. split; reflexivity. Qed.

(** X16. Output arrives in order: on an attached view, a sequence of
    messages from the socket is written to the terminal one call a
    message, verbatim and in the order of arrival, and nothing else is
    called; the surface ends as those writes leave it. *)
Theorem messages_written_in_order st s (messages : list string) :
  attached props sdk st ->
  term st = Some s ->
  (forall d, In d messages -> throws (term_write d) = false) ->
  trace (run props sdk (map (fun d => Deliver (connection_message d)) messages) st)
  = map term_write messages /\
  term (final (run props sdk
                 (map (fun d => Deliver (connection_message d)) messages) st))
  = Some (fold_left (fun g d => after (term_write d) g) messages s) /\
  ws (final (run props sdk
               (map (fun d => Deliver (connection_message d)) messages) st))
  = ws st.
Proof.
  intros Ha. destruct (attached_mounted Ha) as (rs & s0 & ->). clear Ha.
  cbn [mounted term]. intros [= <-]. revert s0.
  induction messages as [|d l IH]; intros s0 Hq.
  - repeat split.
  - cbn [map]. destruct (run_cons (Deliver (connection_message d))
                           (map (fun d => Deliver (connection_message d)) l)
                           (mounted rs s0)) as [-> ->].
    assert (Hd : trace (dispatch props (connection_message d) (mounted rs s0))
                 = [term_write d] /\
                 final (dispatch props (connection_message d) (mounted rs s0))
                 = mounted rs (after (term_write d) s0)).
    { change (wp (dispatch props (connection_message d)) (mounted rs s0)
                (fun t st' _ => t = [term_write d] /\
                                st' = mounted rs (after (term_write d) s0))).
      unfold dispatch, ws_message_handler. wp_run.
      - rewrite (Hq d (or_introl eq_refl)) in *. discriminate.
      - split; reflexivity. }
    destruct (step_deliver (connection_message d) (mounted rs s0)) as [-> ->].
    destruct Hd as [-> ->].
    destruct (IH (after (term_write d) s0)) as (Ht & Hs & Hw).
    { intros x Hx. apply Hq. now right. }
    rewrite Ht, Hs, Hw. repeat split.
Qed.

(** Without an open socket, an event other than the opening sends nothing
    and leaves the socket not open. *)
Lemma quiet_while_not_open e st :
  is_open st = false ->
  e <> connection_opened ->
  filter is_outbound (trace (dispatch props e st)) = [] /\
  is_open (final (dispatch props e st)) = false.
Proof.
  intros Ho He.
  change (wp (dispatch props e) st
            (fun t st' _ => filter is_outbound t = [] /\ is_open st' = false)).
  destruct st as [[rs|] t sa fa ls];
    [destruct rs; try discriminate Ho|];
    destruct e; try congruence;
    unfold dispatch, ws_open_handler, ws_message_handler,
      ws_error_handler, ws_close_handler, onData, onResize, onKey,
      window_resize_handler, customKeyEventHandler;
    wp_run; split; reflexivity.
Qed.

(** X17. Nothing goes out without an open socket: from a state whose socket
    is not open (before the connection is established, after it closed,
    after the teardown), whatever events arrive short of the socket's
    opening, the view sends no input and issues no size update. *)
Theorem nothing_sent_until_open st (events : list Event) :
  is_open st = false ->
  ~ In connection_opened events ->
  filter is_outbound (trace (run props sdk (map Deliver events) st)) = [] /\
  is_open (final (run props sdk (map Deliver events) st)) = false.
Proof.
  revert st. induction events as [|e l IH]; intros st Ho Hn.
  - split; [reflexivity | exact Ho].
  - cbn [map]. destruct (run_cons (Deliver e) (map Deliver l) st) as [-> ->].
    destruct (step_deliver e st) as [-> ->].
    destruct (@quiet_while_not_open e st Ho) as [Hq Ho'].
    { intros ->. apply Hn. now left. }
    destruct (IH (final (dispatch props e st)) Ho') as [Ht Hf].
    { intros Hin. apply Hn. now right. }
    rewrite filter_app, Hq, Ht. split; [reflexivity | exact Hf].
Qed.

(** X18. Events never build or take down: whatever the state and the
    event, handling it calls no constructor, installs no handler, opens no
    new socket, and neither closes the socket nor disposes the terminal;
    the bindings that were assigned stay assigned and the installed
    handlers stay the same. *)
Theorem events_keep_the_view e st :
  filter is_lifecycle (trace (dispatch props e st)) = [] /\
  listeners (final (dispatch props e st)) = listeners st /\
  serializeAddon (final (dispatch props e st)) = serializeAddon st /\
  fitAddon (final (dispatch props e st)) = fitAddon st /\
  (ws (final (dispatch props e st)) = None <-> ws st = None) /\
  (term (final (dispatch props e st)) = None <-> term st = None).
Proof.
  change (wp (dispatch props e) st
            (fun t st' _ =>
               filter is_lifecycle t = [] /\
               listeners st' = listeners st /\
               serializeAddon st' = serializeAddon st /\
               fitAddon st' = fitAddon st /\
               (ws st' = None <-> ws st = None) /\
               (term st' = None <-> term st = None))).
  destruct st as [[rs|] [t|] sa fa ls]; destruct e;
    unfold dispatch, ws_open_handler, ws_message_handler,
      ws_error_handler, ws_close_handler, onData, onResize, onKey,
      window_resize_handler, customKeyEventHandler;
    wp_run; cbn;
    repeat split; intros; congruence.
Qed.

(** X19. The mount body dereferences no unassigned binding, whatever
    raises: it can only end with the exception of a call that raised. When
    none of its calls raises it completes, having made exactly the calls of
    [mount_calls], with the socket still connecting and every handler
    installed; and a mount sends no input and issues no size update. *)
Theorem mount_is_well_ordered :
  (forall v, outcome (onMount_body props sdk init) <> Abrupt (TypeError v)) /\
  ((forall c, In c (mount_calls props sdk) -> throws c = false) ->
   outcome (onMount_body props sdk init) = Normal tt /\
   trace (onMount_body props sdk init) = mount_calls props sdk /\
   exists s, final (onMount_body props sdk init) = mounted CONNECTING s) /\
  filter is_outbound (trace (onMount_body props sdk init)) = [].
Proof.
  destruct (mount_spec props sdk) as ([rest Hpre] & _ & Hn & Hab).
  split; [|split].
  - intros v E. destruct (Hab _ E) as (c & Hc & _). discriminate.
  - intros Hq.
    assert (Ho : outcome (onMount_body props sdk init) = Normal tt).
    { destruct (outcome (onMount_body props sdk init)) as [[]|e] eqn:E;
        [reflexivity|].
      destruct (Hab e eq_refl) as (c & _ & Hc & Hin).
      rewrite Hq in Hc; [discriminate|].
      rewrite Hpre. apply in_or_app. now left. }
    split; [exact Ho|]. destruct (Hn Ho) as [Ht Hs]. split; assumption.
  - assert (H : filter is_outbound (mount_calls props sdk) = []).
    { unfold mount_calls, restore_calls, resize_call, scroll_call.
      rewrite !filter_app. cbn [filter is_outbound is_send is_update orb app].
      rewrite app_nil_r.
      destruct (buffer (pty props)) as [b|]; [|reflexivity].
      destruct (truthy b); [|reflexivity].
      destruct (rows (pty props)) as [r|], (cols (pty props)) as [c|],
        (scrollY (pty props)) as [y|];
        repeat match goal with
          | |- context [if ?x then _ else _] => destruct x
          end; reflexivity. }
    rewrite Hpre, filter_app in H. now apply app_eq_nil in H.
Qed.

End Life.

(** X20. Reattaching replays what the teardown captured: the record handed
    to the host at the teardown of a view, given to the next view of the
    session, makes its mount resize the terminal to the captured size,
    reset it, write the captured snapshot and scroll to the captured
    offset (no scroll for offset 0), in this order; a view torn down with
    an empty snapshot is restored by no call at all. *)
Theorem reattach_replays_capture {P : Platform} props sdk (s : Surface) :
  outcome (onMount_body (reattach props s) sdk init) = Normal tt ->
  (serialize s <> "" -> term_rows s <> 0%Z -> term_cols s <> 0%Z ->
   filter is_restore_op (trace (onMount_body (reattach props s) sdk init))
   = ([ term_resize (term_cols s) (term_rows s); term_reset;
        term_write (serialize s) ]
      ++ (if (viewportY s =? 0)%Z then []
          else [term_scrollToLine (viewportY s)]))%list) /\
  (serialize s = "" ->
   filter is_restore_op (trace (onMount_body (reattach props s) sdk init)) = []).
Proof.
  intros Hn. destruct (mount_spec (reattach props s) sdk) as (_ & _ & Hm & _).
  destruct (Hm Hn) as [-> _]. rewrite mount_restore_ops.
  unfold restore_calls, resize_call, scroll_call, reattach, captured.
  cbn [pty buffer rows cols scrollY]. split.
  - intros Hs Hr Hc. apply truthy_true in Hs. rewrite Hs.
    apply Z.eqb_neq in Hr. apply Z.eqb_neq in Hc. rewrite Hr, Hc. cbn [negb andb].
    destruct (viewportY s =? 0)%Z; reflexivity.
  - intros Hs. apply truthy_false in Hs. now rewrite Hs.
Qed.

Lemma reattach_replays_capture_witness :
  outcome (onMount_body (P := quiet_grid)
             (reattach (P := quiet_grid)
                (host_props session_with_snapshot) demo_grid)
             demo_sdk init) = Normal tt /\
  filter is_restore_op
    (trace (onMount_body (P := quiet_grid)
              (reattach (P := quiet_grid)
                 (host_props session_with_snapshot) demo_grid)
              demo_sdk init))
  = [ term_resize 100 40; term_reset; term_write "$ ls"; term_scrollToLine 7 ].
Proof.
  split; [reflexivity|].
  apply (@reattach_replays_capture quiet_grid (host_props session_with_snapshot)
           demo_sdk demo_grid);
    first [reflexivity | discriminate].
Defined.

Lemma messages_written_in_order_witness :
  attached (P := quiet_grid) (host_props session_with_snapshot) demo_sdk
    demo_attached /\
  trace (run (P := quiet_grid) (host_props session_with_snapshot) demo_sdk
           (map (fun d => Deliver (connection_message d)) ["a"; "b"; "c"])
           demo_attached)
  = [term_write "a"; term_write "b"; term_write "c"].
Proof.
  split; [exact demo_is_attached|].
  eapply (@messages_written_in_order quiet_grid
            (host_props session_with_snapshot) demo_sdk demo_attached).
  - exact demo_is_attached.
  - reflexivity.
  - intros d _. reflexivity.
Defined.

Lemma nothing_sent_until_open_witness :
  is_open demo_attached = false /\
  ~ In connection_opened [user_input "ls"; grid_resized 90 20; connection_error] /\
  filter is_outbound
    (trace (run (P := quiet_grid) (host_props session_with_snapshot) demo_sdk
              (map Deliver [user_input "ls"; grid_resized 90 20; connection_error])
              demo_attached)) = [].
Proof.
  assert (Hn : ~ In connection_opened
                 [user_input "ls"; grid_resized 90 20; connection_error]).
  { intros [H|[H|[H|[]]]]; discriminate H. }
  split; [reflexivity|]. split; [exact Hn|].
  apply (@nothing_sent_until_open quiet_grid (host_props session_with_snapshot)
           demo_sdk demo_attached
           [user_input "ls"; grid_resized 90 20; connection_error]).
  - reflexivity.
  - exact Hn.
Defined.

End TerminalLifeFacts.
